(** * pipe2py.modules.pipefetch: the feed fetching stage

    A shallow embedding of [parser] and [asyncParser] of
    [pipe2py/modules/pipefetch.py].  Python's lazy iterators ([imap],
    generator expressions, generators) are modelled as suspended
    computations in a writer-and-exception monad [M]: the writer part
    records every call of a collaborator (resolver, reader, feed parser,
    entry normalizer) as an [event], so that "work that has not happened
    yet" is a statement about the recorded trace. *)

From stdpp Require Import gmap strings list.

(** ** Exceptions, effects and the monad *)

(** The exceptions the stage can surface.  [KeyError] is Python's own (a
    missing dictionary key); the other three are raised by the external
    collaborators. *)
Inductive exn : Type :=
  | KeyError (key : string)
  | ResolutionError (url : string)
  | RetrievalError (location : string)
  | ParseError (content : string).

(** One entry of the trace is one piece of work done by a collaborator.
    [EvRead] is a blocking read; [EvIssue] and [EvDone] are the start and
    the completion of a non-blocking read. *)
Inductive event : Type :=
  | EvResolve (url : string)
  | EvRead (location : string)
  | EvIssue (location : string)
  | EvDone (location : string)
  | EvParse (content : string)
  | EvNormalize.

Inductive result (A : Type) : Type :=
  | Ok (a : A)
  | Raise (e : exn).
Arguments Ok {A} a.
Arguments Raise {A} e.

(** A computation: the events it performed, then a value or an exception. *)
#[universes(polymorphic)] Definition M (A : Type) : Type := (list event * result A)%type.

#[global, universes(polymorphic)] Instance M_ret : MRet M := λ A a, ([], Ok a).

#[global, universes(polymorphic)] Instance M_bind : MBind M := λ A B f m,
  match m with
  | (t, Ok a) => let '(t', r) := f a in (t ++ t', r)
  | (t, Raise e) => (t, Raise e)
  end.

Definition raise {A : Type} (e : exn) : M A := ([], Raise e).

Definition tick (ev : event) : M unit := ([ev], Ok tt).

(** ** The iterator protocol *)

(** [next s] resumes the iterator in state [s]: it yields an item and the
    iterator's new state, or [None] for StopIteration, or raises. *)
Class Iter (S A : Type) : Type := next : S → M (option (A * S)).
#[global] Hint Mode Iter ! - : typeclass_instances.

(** An iterator object of unknown class: a state and its [next] method. *)
Record iterator (A : Type) : Type := Iterator {
  it_state : Type;
  it_cur : it_state;
  it_next : it_state → M (option (A * it_state))
}.
Arguments Iterator {A} it_state it_cur it_next.
Arguments it_state {A} _.
Arguments it_cur {A} _.
Arguments it_next {A} _ _.

#[global] Instance iterator_iter {A : Type} : Iter (iterator A) A := λ it,
  r ← it_next it (it_cur it);
  mret (match r with
        | Some (a, s) => Some (a, Iterator (it_state it) s (it_next it))
        | None => None
        end).

(** A lazy sequence over a Python list ([itertools.imap] of a list, or a
    generator expression over one): one suspended computation per element,
    run when that element is pulled. *)
Abbreviation lazylist A := (list (M A)).

(** [iter(xs)]: the elements are already there. *)
Definition iter {A : Type} (xs : list A) : lazylist A := mret <$> xs.

(** [itertools.imap(f, xs)]: [f] is applied when the element is pulled. *)
Definition imap {A B : Type} (f : A → M B) (xs : lazylist A) : lazylist B :=
  (λ m, m ≫= f) <$> xs.

(** What a consumer has seen after asking for some entries. *)
Inductive status : Type :=
  | Running
  | Stopped
  | Raised (e : exn).

(** [drain n s] asks the iterator for up to [n] items, as the first [n]
    rounds of [for x in s] do: the trace of the work done, the items
    obtained, and how it ended ([Running]: all [n] items were delivered). *)
Definition prefix {A : Type} (t : list event) (xs : list A)
    (r : list event * list A * status) : list event * list A * status :=
  (t ++ r.1.1, xs ++ r.1.2, r.2).

Fixpoint drain {S A : Type} `{!Iter S A} (n : nat) (s : S)
    : list event * list A * status :=
  match n with
  | 0 => ([], [], Running)
  | S n' =>
      match next s with
      | (t, Ok (Some (a, s'))) => prefix t [a] (drain n' s')
      | (t, Ok None) => (t, [], Stopped)
      | (t, Raise e) => (t, [], Raised e)
      end
  end.

(** [and_then r k]: what a consumer sees when a sequence that ended as [r]
    is followed, if it stopped normally, by one that ends as [k]. *)
Definition and_then {A : Type} (r k : list event * list A * status)
    : list event * list A * status :=
  match r.2 with
  | Stopped => prefix r.1.1 r.1.2 k
  | _ => r
  end.

(** The entries and the ending of a run, without its trace. *)
Definition seen {A : Type} (r : list event * list A * status)
    : list A * status :=
  (r.1.2, r.2).

(** A sequence is finite when consuming it reaches its normal end, and
    infinite when every bounded consumption is still under way. *)
Definition finite {S A : Type} `{!Iter S A} (s : S) : Prop :=
  ∃ n, (drain n s).2 = Stopped.

Definition infinite {S A : Type} `{!Iter S A} (s : S) : Prop :=
  ∀ n, (drain n s).2 = Running.

(** ** utils.multiplex *)

Section Multiplex.
Context {S A : Type} `{!Iter S A}.

(** Modelled from the spec: the step of the Merger that moves on to the
    next listed sequence once the current one is exhausted.  The next
    suspended source is run only now; sequences that are exhausted at
    once are passed over. *)
Fixpoint advance (rest : lazylist S)
    : M (option (A * (option S * lazylist S))) :=
  match rest with
  | [] => mret None
  | m :: rest' =>
      s ← m;
      r ← next s;
      match r with
      | Some (a, s') => mret (Some (a, (Some s', rest')))
      | None => advance rest'
      end
  end.

(** Modelled from the spec: [next] of the Merger.  It pulls from the
    current sequence only, and moves on when that one is exhausted. *)
Definition chain_next (st : option S * lazylist S)
    : M (option (A * (option S * lazylist S))) :=
  match st.1 with
  | Some s =>
      r ← next s;
      match r with
      | Some (a, s') => mret (Some (a, (Some s', st.2)))
      | None => advance st.2
      end
  | None => advance st.2
  end.

(** Modelled from the spec: the Merger while it is running, made of the
    sequence being read, if any, and the sequences still to come. *)
Definition chain (cur : option S) (rest : lazylist S) : iterator A :=
  Iterator (option S * lazylist S) (cur, rest) chain_next.

(** Modelled from the spec: [utils.multiplex] is defined in
    [pipe2py.lib.utils], outside this module.  It is the Merger: the
    combined sequence gives each input sequence's entries in full, in the
    order the sequences were listed; advancing it only pulls from the
    current sequence and moves to the next one once the current one is
    exhausted. *)
Definition multiplex (sources : lazylist S) : iterator A :=
  chain None sources.
End Multiplex.

(** ** The collaborators and the two orchestrators *)

(** A value passed around by the pipeline: keyword arguments hold feeds
    (iterators of entries) next to plain settings. *)
Inductive value (entry : Type) : Type :=
  | VIter (it : iterator entry)
  | VStr (s : string)
  | VNone.
Arguments VIter {entry} it.
Arguments VStr {entry} s.
Arguments VNone {entry}.

(** [d[k]] on a dictionary: KeyError when the key is missing. *)
Definition getitem {V : Type} (d : gmap string V) (k : string) : M V :=
  match d !! k with
  | Some v => mret v
  | None => raise (KeyError k)
  end.

(** Run the suspended computations of a lazy sequence from left to right,
    as [list(xs)] does; the first exception ends the run. *)
Fixpoint force {A : Type} (xs : lazylist A) : M (list A) :=
  match xs with
  | [] => mret []
  | m :: xs' => a ← m; as' ← force xs'; mret (a :: as')
  end.

(** Modelled from the spec: the join of the fan-out retrieval.  The
    pending reads complete one at a time, in the order the schedule picks
    them ([sched] gives, for each step, a position among the reads still
    pending); each result goes to the slot of its source position.  The
    first read that fails ends the wait. *)
Fixpoint await (asyncCallable : string → result string) (sched : list nat)
    (n : nat) (pending : list (nat * string))
    (slots : list (option string)) : M (list (option string)) :=
  match n with
  | 0 => mret slots
  | S n' =>
      let k := hd 0 sched `mod` length pending in
      match pending !! k with
      | None => mret slots
      | Some (i, location) =>
          match asyncCallable location with
          | Raise e => raise e
          | Ok content =>
              tick (EvDone location);;
              await asyncCallable (tail sched) n' (delete k pending)
                    (<[i := Some content]> slots)
          end
      end
  end.

(** Modelled from the spec: [tu.asyncImap] is defined in
    [pipe2py.twisted.utils], outside this module.  It is the fan-out retrieval
    primitive: all locations are resolved first, a read is issued for each
    without blocking, the reads complete independently (in the order given
    by [sched], which stands for the network), the results are collected
    into slots indexed by source position, and the whole fails if any
    member fails.  [asyncCallable l] is what the read of [l] completes
    with. *)
Definition asyncImap (asyncCallable : string → result string)
    (sched : list nat) (abs_urls : lazylist string) : M (list string) :=
  locations ← force abs_urls;
  force (imap (λ l, tick (EvIssue l)) (iter locations));;
  slots ← await asyncCallable sched (length locations)
                (zip (seq 0 (length locations)) locations)
                (replicate (length locations) None);
  mret (omap id slots).

Section Fetch.
Context {doc entry gen : Type}.

(** The outcome of each external collaborator, [None] when it fails:
    [utils.get_abspath], [urlopen(url).read()], [tu.urlRead] and
    [speedparser.parse]. *)
Variable abspath : string → option string.
Variable blocking_read : string → option string.
Variable deferred_read : string → option string.
Variable feed_syntax : string → option doc.

(** [utils.gen_entries] is a generator function: calling it only creates
    the generator object; [gen_resume] is one step of its body. *)
Variable gen_entries : doc → gen.
Variable gen_resume : gen → option (entry * gen).

Definition get_abspath (url : string) : M string :=
  tick (EvResolve url);;
  match abspath url with
  | Some location => mret location
  | None => raise (ResolutionError url)
  end.

Definition urlopen_read (url : string) : M string :=
  tick (EvRead url);;
  match blocking_read url with
  | Some content => mret content
  | None => raise (RetrievalError url)
  end.

Definition parse (content : string) : M doc :=
  tick (EvParse content);;
  match feed_syntax content with
  | Some parsed => mret parsed
  | None => raise (ParseError content)
  end.

(** [tu.urlRead]: what the deferred read of a location fires with. *)
Definition urlRead (url : string) : result string :=
  match deferred_read url with
  | Some content => Ok content
  | None => Raise (RetrievalError url)
  end.

#[local] Instance gen_iter : Iter gen entry := λ g,
  tick EvNormalize;; mret (gen_resume g).

(** [asyncParser(_, urls, skip, **kwargs)].  The [yield] of the deferred
    is the bind on [asyncImap]: what follows runs once all reads are
    done.  [sched] is the order in which the reactor completes them. *)
Definition asyncParser (sched : list nat) (_ : unit) (urls : list string)
    (skip : bool) (kwargs : gmap string (value entry))
    : M (value entry * bool) :=
  feed ← (if skip then
            getitem kwargs "feed"
          else
            let abs_urls := imap get_abspath (iter urls) in
            contents ← asyncImap urlRead sched abs_urls;
            let parsed := imap parse (iter contents) in
            let entries := imap (λ d, mret (gen_entries d)) parsed in
            mret (VIter (multiplex entries)));
  let result := (feed, skip) in
  mret result.

(** [parser(_, urls, skip, **kwargs)].  The generator expression over
    [abs_urls] is an [imap] of the blocking read. *)
Definition parser (_ : unit) (urls : list string) (skip : bool)
    (kwargs : gmap string (value entry)) : M (value entry * bool) :=
  feed ← (if skip then
            getitem kwargs "feed"
          else
            let abs_urls := imap get_abspath (iter urls) in
            let contents := imap urlopen_read abs_urls in
            let parsed := imap parse contents in
            let entries := imap (λ d, mret (gen_entries d)) parsed in
            mret (VIter (multiplex entries)));
  mret (feed, skip).

(** *** Vocabulary of the properties *)

(** The part of [parser]'s pipeline that belongs to one source: a
    suspended resolve, read, parse and creation of the generator. *)
Definition sequential_source (url : string) : M gen :=
  (((mret url ≫= get_abspath) ≫= urlopen_read) ≫= parse)
    ≫= (λ d, mret (gen_entries d)).

(** The same for [asyncParser], whose content is already there. *)
Definition deferred_source (content : string) : M gen :=
  ((mret content ≫= parse) ≫= (λ d, mret (gen_entries d))).

(** The generator in state [g] yields exactly [es] and then stops. *)
Inductive yields : gen → list entry → Prop :=
  | yields_stop g : gen_resume g = None → yields g []
  | yields_item g e g' es :
      gen_resume g = Some (e, g') → yields g' es → yields g (e :: es).

(** Source [url] is resolved, read and parsed without error and
    normalizes to the entries [es]. *)
Definition source_entries (url : string) (es : list entry) : Prop :=
  ∃ location content parsed,
    abspath url = Some location ∧
    blocking_read location = Some content ∧
    feed_syntax content = Some parsed ∧
    yields (gen_entries parsed) es.

(** Source [url] is resolved and read without error. *)
Definition source_retrieved (url : string) : Prop :=
  ∃ location content,
    abspath url = Some location ∧ blocking_read location = Some content.

(** Source [url] fails with [e]: in resolution, in retrieval or in
    parsing. *)
Definition source_fails (url : string) (e : exn) : Prop :=
  (abspath url = None ∧ e = ResolutionError url) ∨
  (∃ location, abspath url = Some location ∧
     blocking_read location = None ∧ e = RetrievalError location) ∨
  (∃ location content, abspath url = Some location ∧
     blocking_read location = Some content ∧
     feed_syntax content = None ∧ e = ParseError content).

(** What the caller of an orchestrator can observe with [n] requests for
    an entry: the failure of the call, or the flag with the entries
    delivered and how the sequence ended (a value that is no iterator is
    observed as it is). *)
Inductive observation : Type :=
  | ObsRaise (e : exn)
  | ObsValue (v : value entry) (b : bool)
  | ObsFeed (xs : list entry) (st : status) (b : bool).

Definition observe (n : nat) (r : M (value entry * bool)) : observation :=
  match r.2 with
  | Raise e => ObsRaise e
  | Ok (VIter f, b) => ObsFeed (drain n f).1.2 (drain n f).2 b
  | Ok (v, b) => ObsValue v b
  end.

End Fetch.

(** ** Reading a trace *)

(** The sources resolved and the locations read with the blocking reader,
    in the order in which it happened. *)
Definition resolutions (t : list event) : list string :=
  omap (λ ev, match ev with EvResolve url => Some url | _ => None end) t.

Definition blocking_reads (t : list event) : list string :=
  omap (λ ev, match ev with EvRead location => Some location | _ => None end)
       t.

(** The contents handed to the feed parser, in the order in which it
    happened. *)
Definition parses (t : list event) : list string :=
  omap (λ ev, match ev with EvParse content => Some content | _ => None end)
       t.

(** ** A concrete instance

    Every source is resolved to ["/"] followed by its name, except
    ["bad"]; every location is read as its name between angle brackets,
    except ["/B"]; every content has the two entries [content1] and
    [content2], except ["</X>"], which is malformed.  A generator either
    walks a list once or cycles through it for ever. *)
Module Demo.

Definition abspath (u : string) : option string :=
  if decide (u = "bad") then None else Some ("/" +:+ u).

Definition read (l : string) : option string :=
  if decide (l = "/B") then None else Some ("<" +:+ l +:+ ">").

Definition feed_syntax (c : string) : option (list string) :=
  if decide (c = "</X>") then None else Some [c +:+ "1"; c +:+ "2"].

Definition gen_entries (d : list string) : bool * list string := (false, d).

Definition gen_resume (g : bool * list string)
    : option (string * (bool * list string)) :=
  match g.2 with
  | [] => None
  | e :: es => Some (e, (g.1, if g.1 then es ++ [e] else es))
  end.

Definition parser := parser abspath read feed_syntax gen_entries gen_resume.

Definition asyncParser :=
  asyncParser abspath read feed_syntax gen_entries gen_resume.

Definition empty_feed : iterator string :=
  Iterator unit tt (λ _, mret None).

End Demo.

(** * Properties *)

(** ** Draining any iterator *)

Section DrainBasics.
Context {S A : Type} `{!Iter S A}.

(** Once a run has ended, asking for more changes nothing. *)
Lemma drain_mono n m (s : S) :
  n ≤ m → (drain n s).2 ≠ Running → drain m s = drain n s.
Proof.
  revert m s. induction n as [|n IH]; intros m s Hle Hst; [done|].
  destruct m as [|m]; [lia|]. cbn [drain] in *.
  destruct (next s) as [t [[[a s']|]|e]]; try done.
  rewrite (IH m s'); [done|lia|done].
Qed.

Lemma drain_length n (s : S) : length (drain n s).1.2 ≤ n.
Proof.
  revert s. induction n as [|n IH]; intros s; [done|]. cbn [drain].
  destruct (next s) as [t [[[a s']|]|e]]; simpl; try lia.
  specialize (IH s'). lia.
Qed.

End DrainBasics.

(** ** Draining a merged sequence *)

Section DrainFacts.
Context {S A : Type} `{!Iter S A}.

Lemma prefix_prefix t t' (xs ys : list A) r :
  prefix t xs (prefix t' ys r) = prefix (t ++ t') (xs ++ ys) r.
Proof. unfold prefix; simpl. by rewrite !app_assoc. Qed.

Lemma prefix_status t (xs : list A) r : (prefix t xs r).2 = r.2.
Proof. done. Qed.

Lemma and_then_prefix t (xs : list A) r k :
  and_then (prefix t xs r) k = prefix t xs (and_then r k).
Proof.
  unfold and_then. rewrite prefix_status.
  destruct r as [[t' ys] []]; simpl; try done.
  unfold prefix; simpl. by rewrite !app_assoc.
Qed.

Lemma drain_chain_nil n :
  drain n (chain (S:=S) (A:=A) None []) =
  match n with 0 => ([], [], Running) | _ => ([], [], Stopped) end.
Proof. by destruct n. Qed.

Lemma next_chain_cons_ok t (s : S) rest :
  next (chain None ((t, Ok s) :: rest)) =
  (let '(t', r) := next (chain (Some s) rest) in (t ++ t', r)).
Proof.
  unfold next, iterator_iter, chain; simpl. unfold chain_next; simpl.
  destruct (next s) as [t1 [[[a s']|]|e]]; simpl.
  - by rewrite !app_assoc.
  - destruct (advance rest) as [t2 [r|e]]; simpl; by rewrite !app_assoc.
  - done.
Qed.

Lemma next_chain_some (s : S) rest :
  next (chain (Some s) rest) =
  match next s with
  | (t, Ok (Some (a, s'))) => (t, Ok (Some (a, chain (Some s') rest)))
  | (t, Ok None) => let '(t', r) := next (chain None rest) in (t ++ t', r)
  | (t, Raise e) => (t, Raise e)
  end.
Proof.
  unfold next at 1 3, iterator_iter, chain; simpl. unfold chain_next; simpl.
  destruct (next s) as [t1 [[[a s']|]|e]]; simpl.
  - by rewrite !app_nil_r.
  - destruct (advance rest) as [t2 [r|e]]; simpl; by rewrite ?app_assoc.
  - done.
Qed.

Lemma drain_chain_cons_ok n t (s : S) rest :
  drain (Datatypes.S n) (chain None ((t, Ok s) :: rest)) =
  prefix t [] (drain (Datatypes.S n) (chain (Some s) rest)).
Proof.
  cbn [drain]. rewrite next_chain_cons_ok.
  destruct (next (chain (Some s) rest)) as [t' [[[a s']|]|e]];
    rewrite ?prefix_prefix; unfold prefix; simpl; by rewrite ?app_nil_r.
Qed.

Lemma drain_chain_cons_raise n t e rest :
  drain (Datatypes.S n) (chain (S:=S) (A:=A) None ((t, Raise e) :: rest)) =
  (t, [], Raised e).
Proof. done. Qed.

Lemma drain_chain_some n (s : S) rest :
  drain n (chain (Some s) rest) =
  and_then (drain n s)
           (drain (n - length (drain n s).1.2) (chain None rest)).
Proof.
  revert s. induction n as [|n IH]; intros s; [done|].
  cbn [drain]. rewrite next_chain_some.
  destruct (next s) as [t1 [[[a s']|]|e]] eqn:Hs.
  - by rewrite IH, and_then_prefix.
  - unfold and_then; cbn [fst snd length]. rewrite Nat.sub_0_r.
    cbn [drain].
    destruct (next (chain None rest)) as [t2 [[[a st]|]|e]];
      rewrite ?prefix_prefix; unfold prefix; simpl; by rewrite ?app_nil_r.
  - done.
Qed.

Lemma seen_prefix t (xs : list A) r :
  seen (prefix t xs r) = (xs ++ (seen r).1, (seen r).2).
Proof. done. Qed.

Lemma seen_and_then (r k : list event * list A * status) :
  seen (and_then r k) =
  match (seen r).2 with
  | Stopped => ((seen r).1 ++ (seen k).1, (seen k).2)
  | _ => seen r
  end.
Proof. by destruct r as [[t xs] []]. Qed.

(** The sequences still to come do not matter while the merged sequence
    has not reached its end. *)
Lemma drain_chain_app_some ms tail :
  (∀ n, (drain n (chain (S:=S) (A:=A) None ms)).2 ≠ Stopped →
        drain n (chain None (ms ++ tail)) = drain n (chain None ms)) →
  ∀ (s : S) n, (drain n (chain (Some s) ms)).2 ≠ Stopped →
        drain n (chain (Some s) (ms ++ tail)) = drain n (chain (Some s) ms).
Proof.
  intros HNone s n. rewrite !drain_chain_some. unfold and_then.
  destruct (drain n s) as [[t xs] []]; cbn [fst snd]; try done.
  intros Hst. rewrite HNone; [done|]. by rewrite prefix_status in Hst.
Qed.

Lemma drain_chain_app ms tail (cur : option S) n :
  (drain n (chain cur ms)).2 ≠ Stopped →
  drain n (chain cur (ms ++ tail)) = drain n (chain cur ms).
Proof.
  revert cur n.
  assert (∀ n, (drain n (chain (S:=S) (A:=A) None ms)).2 ≠ Stopped →
    drain n (chain None (ms ++ tail)) = drain n (chain None ms)) as HNone.
  { induction ms as [|[t [s|e]] ms IH]; intros [|n] Hst; try done.
    simpl app. rewrite !drain_chain_cons_ok in *.
    rewrite prefix_status in Hst.
    by rewrite (drain_chain_app_some _ _ IH). }
  intros [s|] n; [by apply drain_chain_app_some | by apply HNone].
Qed.

(** What the consumer sees of a merged sequence depends on the outcome
    of each suspended source only, not on the work it takes. *)
Lemma seen_chain_some_ext ms1 ms2 :
  (∀ n, seen (drain n (chain (S:=S) (A:=A) None ms1)) =
        seen (drain n (chain None ms2))) →
  ∀ (s : S) n, seen (drain n (chain (Some s) ms1)) =
               seen (drain n (chain (Some s) ms2)).
Proof.
  intros HNone s n. rewrite !drain_chain_some, !seen_and_then.
  destruct (seen (drain n s)) as [xs []] eqn:Hs; try done.
  cbn [fst snd]. unfold seen in Hs. injection Hs as Hxs _.
  by rewrite Hxs, HNone.
Qed.

Lemma seen_chain_ext (ms1 ms2 : lazylist S) (cur : option S) n :
  Forall2 (λ m1 m2, m1.2 = m2.2) ms1 ms2 →
  seen (drain n (chain cur ms1)) = seen (drain n (chain cur ms2)).
Proof.
  intros Hms. revert cur n.
  assert (∀ n, seen (drain n (chain (S:=S) (A:=A) None ms1)) =
               seen (drain n (chain None ms2))) as HNone.
  { induction Hms as [|[t1 r1] [t2 r2] ms1 ms2 Hr _ IH]; [done|].
    simpl in Hr; subst r2. intros [|n]; [done|].
    destruct r1 as [s|e]; [|done].
    rewrite !drain_chain_cons_ok, !seen_prefix.
    by rewrite (seen_chain_some_ext _ _ IH). }
  intros [s|] n; [by apply seen_chain_some_ext | by apply HNone].
Qed.

(** The work done while draining a merged sequence is the work of its
    suspended sources and of the sequences they give. *)
Lemma drain_chain_trace (P : event → Prop) (ms : lazylist S) cur n :
  Forall (λ m, Forall P m.1) ms →
  (∀ (s : S) k, Forall P (drain k s).1.1) →
  Forall P (drain n (chain cur ms)).1.1.
Proof.
  intros Hms Hin.
  assert (∀ ms' : lazylist S,
            (∀ k, Forall P (drain k (chain None ms')).1.1) →
            ∀ s k, Forall P (drain k (chain (Some s) ms')).1.1) as HSome.
  { intros ms' HNone s k. rewrite drain_chain_some. unfold and_then.
    pose proof (Hin s k) as Hs.
    destruct (drain k s) as [[t xs] []]; cbn [fst snd] in *; try done.
    apply Forall_app. split; [done|apply HNone]. }
  assert (∀ k, Forall P (drain k (chain (S:=S) (A:=A) None ms)).1.1)
    as HNone.
  { induction Hms as [|[t [s|e]] ms Hm _ IH]; intros [|k];
      try by constructor.
    - rewrite drain_chain_cons_ok. cbn [prefix fst snd].
      apply Forall_app. split; [done|]. by apply HSome.
    - by rewrite drain_chain_cons_raise. }
  destruct cur as [s|]; [by apply HSome|apply HNone].
Qed.

End DrainFacts.

(** ** The fan-out retrieval *)

Section AwaitFacts.
Variable f : string → result string.

Lemma all_or_fail {A B : Type} (g : A → option B) (xs : list A) :
  (∃ ys, Forall2 (λ x y, g x = Some y) xs ys) ∨
  Exists (λ x, g x = None) xs.
Proof.
  induction xs as [|x xs [[ys IH]|IH]].
  - left. by exists [].
  - destruct (g x) as [y|] eqn:Hx.
    + left. exists (y :: ys). by constructor.
    + right. by left.
  - right. by right.
Qed.

Lemma omap_id_Some {A : Type} (xs : list A) : omap id (Some <$> xs) = xs.
Proof. induction xs as [|x xs IH]; [done|]. simpl. f_equal. apply IH. Qed.

Lemma force_imap_cons {A B : Type} (g : A → M B) x xs :
  force (imap g (iter (x :: xs))) =
  b ← g x; bs ← force (imap g (iter xs)); mret (b :: bs).
Proof.
  unfold imap, iter. cbn. by destruct (g x) as [t [b|e]].
Qed.

Lemma force_issue ls :
  force (imap (λ l, tick (EvIssue l)) (iter ls)) =
  (EvIssue <$> ls, Ok (replicate (length ls) ())).
Proof.
  induction ls as [|l ls IH]; [done|].
  unfold imap, iter in *. cbn. rewrite IH. cbn. by rewrite app_nil_r.
Qed.

(** Every pending read completes: each slot of a pending source is
    filled with its content, the other slots are left alone, and the
    completions are those of the pending reads in some order. *)
Lemma await_ok sched n pending slots :
  length pending = n →
  NoDup pending.*1 →
  (∀ i l, (i, l) ∈ pending → i < length slots ∧ ∃ c, f l = Ok c) →
  ∃ t slots',
    await f sched n pending slots = (t, Ok slots') ∧
    t ≡ₚ EvDone <$> pending.*2 ∧
    length slots' = length slots ∧
    (∀ j, j ∉ pending.*1 → slots' !! j = slots !! j) ∧
    (∀ i l c, (i, l) ∈ pending → f l = Ok c → slots' !! i = Some (Some c)).
Proof.
  revert sched pending slots.
  induction n as [|n IH]; intros sched pending slots Hlen Hnd Hok.
  - destruct pending; [|done]. exists [], slots. split_and!; try done.
    intros i l c Hin. by apply elem_of_nil in Hin.
  - cbn [await].
    set (k := hd 0 sched `mod` length pending).
    assert (k < length pending) as Hk.
    { apply Nat.mod_upper_bound. lia. }
    destruct (lookup_lt_is_Some_2 pending k Hk) as [[i l] Hil].
    rewrite Hil.
    pose proof (delete_Permutation pending k (i, l) Hil) as Hperm.
    destruct (Hok i l) as [Hi [c Hc]].
    { by eapply list_elem_of_lookup_2. }
    rewrite Hc.
    assert (NoDup (i :: (delete k pending).*1)) as Hnd'.
    { by rewrite Hperm in Hnd. }
    apply NoDup_cons in Hnd' as [Hfresh Hnd'].
    destruct (IH (tail sched) (delete k pending) (<[i:=Some c]> slots))
      as (t & slots' & Hrun & Ht & Hl & Hout & Hin); [| done | |].
    { pose proof (Permutation_length Hperm) as Hpl. simpl in Hpl. lia. }
    { intros i' l' Hin. rewrite length_insert. apply Hok.
      rewrite Hperm. by right. }
    rewrite Hrun. exists (EvDone l :: t), slots'. split_and!.
    + done.
    + rewrite Hperm. simpl. by rewrite Ht.
    + by rewrite Hl, length_insert.
    + intros j Hj. rewrite Hperm in Hj. simpl in Hj.
      apply not_elem_of_cons in Hj as [Hne Hj].
      rewrite Hout by done. by rewrite list_lookup_insert_ne.
    + intros i' l' c' Hin' Hc'. rewrite Hperm in Hin'.
      apply elem_of_cons in Hin' as [[= -> ->]|Hin'].
      * rewrite Hout by done. rewrite list_lookup_insert_eq by done.
        congruence.
      * by eapply Hin.
Qed.

(** A pending read that fails makes the wait fail, whatever the order
    of completion. *)
Lemma await_fail sched n pending slots :
  length pending = n →
  (∃ i l e, (i, l) ∈ pending ∧ f l = Raise e) →
  ∃ t e, await f sched n pending slots = (t, Raise e).
Proof.
  revert sched pending slots.
  induction n as [|n IH]; intros sched pending slots Hlen (i & l & e & Hin & He).
  - destruct pending; [|done]. by apply elem_of_nil in Hin.
  - cbn [await].
    set (k := hd 0 sched `mod` length pending).
    assert (k < length pending) as Hk.
    { apply Nat.mod_upper_bound. lia. }
    destruct (lookup_lt_is_Some_2 pending k Hk) as [[i0 l0] Hil].
    rewrite Hil.
    pose proof (delete_Permutation pending k (i0, l0) Hil) as Hperm.
    destruct (f l0) as [c|e0] eqn:Hc; [|by exists [], e0].
    destruct (IH (tail sched) (delete k pending) (<[i0:=Some c]> slots))
      as (t & e' & Hrun).
    { pose proof (Permutation_length Hperm) as Hpl. simpl in Hpl. lia. }
    { exists i, l, e. split; [|done]. rewrite Hperm in Hin.
      apply elem_of_cons in Hin as [[= -> ->]|Hin]; [congruence|done]. }
    rewrite Hrun. by exists (EvDone l0 :: t), e'.
Qed.

Lemma elem_of_zip_seq (ls : list string) i l :
  (i, l) ∈ zip (seq 0 (length ls)) ls ↔ ls !! i = Some l.
Proof.
  rewrite list_elem_of_lookup. split.
  - intros [j Hj]. apply lookup_zip_with_Some in Hj as (x & y & [= -> ->] & Hx & Hy).
    apply lookup_seq in Hx as [-> _]. done.
  - intros Hl. exists i. apply lookup_zip_with_Some. exists i, l.
    split_and!; [done| |done]. apply lookup_seq. split; [done|].
    by eapply lookup_lt_Some.
Qed.

(** When every read succeeds the results come back in source order,
    whatever the order of completion. *)
Lemma asyncImap_ok sched (abs_urls : lazylist string) t0 ls cs :
  force abs_urls = (t0, Ok ls) →
  Forall2 (λ l c, f l = Ok c) ls cs →
  ∃ tdone, tdone ≡ₚ EvDone <$> ls ∧
    asyncImap f sched abs_urls = (t0 ++ (EvIssue <$> ls) ++ tdone, Ok cs).
Proof.
  intros Hforce Hread. unfold asyncImap. rewrite Hforce. cbn.
  rewrite force_issue.
  destruct (await_ok sched (length ls) (zip (seq 0 (length ls)) ls)
              (replicate (length ls) None))
    as (t & slots & Hrun & Ht & Hl & _ & Hin).
  { rewrite length_zip_with, length_seq. lia. }
  { rewrite fst_zip by (rewrite length_seq; lia). apply NoDup_seq. }
  { intros i l Hil. apply elem_of_zip_seq in Hil.
    rewrite length_replicate. split; [by eapply lookup_lt_Some|].
    destruct (Forall2_lookup_l _ _ _ _ _ Hread Hil) as (c & _ & Hc). eauto. }
  rewrite Hrun. cbn.
  rewrite snd_zip in Ht by (rewrite length_seq; lia).
  exists t. split; [done|].
  assert (slots = Some <$> cs) as ->.
  { apply list_eq. intros i. rewrite list_lookup_fmap.
    destruct (cs !! i) as [c|] eqn:Hc; simpl.
    - destruct (Forall2_lookup_r _ _ _ _ _ Hread Hc) as (l & Hli & Hlc).
      eapply Hin; [|done]. by apply elem_of_zip_seq.
    - apply lookup_ge_None. rewrite Hl, length_replicate.
      apply lookup_ge_None in Hc. by rewrite (Forall2_length _ _ _ Hread). }
  by rewrite omap_id_Some, !app_nil_r.
Qed.

Lemma asyncImap_fail_read sched (abs_urls : lazylist string) t0 ls :
  force abs_urls = (t0, Ok ls) →
  Exists (λ l, ∃ e, f l = Raise e) ls →
  ∃ t e, asyncImap f sched abs_urls = (t, Raise e).
Proof.
  intros Hforce Hread. unfold asyncImap. rewrite Hforce. cbn.
  rewrite force_issue.
  destruct (await_fail sched (length ls) (zip (seq 0 (length ls)) ls)
              (replicate (length ls) None)) as (t & e & Hrun).
  { rewrite length_zip_with, length_seq. lia. }
  { apply Exists_exists in Hread as (l & Hl & e & He).
    apply list_elem_of_lookup in Hl as [i Hi].
    exists i, l, e. split; [|done]. by apply elem_of_zip_seq. }
  rewrite Hrun. cbn. eauto.
Qed.

Lemma asyncImap_fail_force sched (abs_urls : lazylist string) t0 e :
  force abs_urls = (t0, Raise e) →
  asyncImap f sched abs_urls = (t0, Raise e).
Proof. intros Hforce. unfold asyncImap. by rewrite Hforce. Qed.

End AwaitFacts.

(** ** The pipeline of the two orchestrators *)

Section FetchFacts.
Context {doc entry gen : Type}.
Variable abspath : string → option string.
Variable blocking_read : string → option string.
Variable deferred_read : string → option string.
Variable feed_syntax : string → option doc.
Variable gen_entries : doc → gen.
Variable gen_resume : gen → option (entry * gen).

#[local] Hint Extern 0 (Iter gen _) =>
  exact (gen_iter gen_resume) : typeclass_instances.

Local Abbreviation parser' :=
  (parser abspath blocking_read feed_syntax gen_entries gen_resume).
Local Abbreviation asyncParser' :=
  (asyncParser abspath deferred_read feed_syntax gen_entries gen_resume).
Local Abbreviation sequential_source' :=
  (sequential_source abspath blocking_read feed_syntax gen_entries).
Local Abbreviation deferred_source' :=
  (deferred_source feed_syntax gen_entries).
Local Abbreviation yields' := (yields gen_resume).
Local Abbreviation source_entries' :=
  (source_entries abspath blocking_read feed_syntax gen_entries gen_resume).
Local Abbreviation source_retrieved' :=
  (source_retrieved abspath blocking_read).
Local Abbreviation source_fails' :=
  (source_fails abspath blocking_read feed_syntax).

(** *** Generators *)

Lemma drain_gen_yields (g : gen) es n :
  yields' g es →
  seen (drain n g) =
  (take n es, if decide (n ≤ length es) then Running else Stopped).
Proof.
  intros Hy. revert n.
  induction Hy as [g Hg|g e g' es Hg _ IH]; intros [|n]; try done.
  - cbn [drain]. unfold next, gen_iter; simpl. by rewrite Hg.
  - cbn [drain]. unfold next at 1, gen_iter; simpl. rewrite Hg.
    rewrite seen_prefix, IH. simpl.
    repeat case_decide; done || lia.
Qed.

Lemma drain_gen_not_raised (g : gen) n e : (drain n g).2 ≠ Raised e.
Proof.
  revert g. induction n as [|n IH]; intros g; [done|].
  cbn [drain]. unfold next at 1, gen_iter; simpl.
  destruct (gen_resume g) as [[a g']|]; [|done].
  rewrite prefix_status. apply IH.
Qed.

Lemma drain_gen_trace (g : gen) n :
  Forall (λ ev, ev = EvNormalize) (drain n g).1.1.
Proof.
  revert g. induction n as [|n IH]; intros g; [by constructor|].
  cbn [drain]. unfold next at 1, gen_iter; simpl.
  destruct (gen_resume g) as [[a g']|]; simpl.
  - constructor; [done|apply IH].
  - by repeat constructor.
Qed.

(** *** A merged sequence of sources that deliver their entries *)

Lemma seen_chain_yields_cons t (g : gen) es rest n :
  yields' g es →
  seen (drain n (chain None ((t, Ok g) :: rest))) =
  if decide (n ≤ length es) then (take n es, Running)
  else (es ++ (seen (drain (n - length es) (chain None rest))).1,
        (seen (drain (n - length es) (chain None rest))).2).
Proof.
  intros Hy. destruct n as [|n]; [done|].
  rewrite drain_chain_cons_ok, seen_prefix, drain_chain_some, seen_and_then.
  pose proof (drain_gen_yields g es (S n) Hy) as Hg.
  destruct (drain (S n) g) as [[tg xs] st].
  unfold seen in Hg; cbn [fst snd] in Hg. injection Hg as -> ->.
  unfold seen at 1 2; cbn [fst snd].
  case_decide; [done|]. cbn [fst snd app].
  rewrite length_take, take_ge by lia.
  by replace (S n `min` length es) with (length es) by lia.
Qed.

Lemma seen_chain_sources (ms : lazylist gen) ess tail n :
  Forall2 (λ m es, ∃ t g, m = (t, Ok g) ∧ yields' g es) ms ess →
  seen (drain n (chain None (ms ++ tail))) =
  if decide (n ≤ length (concat ess)) then (take n (concat ess), Running)
  else (concat ess ++
          (seen (drain (n - length (concat ess)) (chain None tail))).1,
        (seen (drain (n - length (concat ess)) (chain None tail))).2).
Proof.
  intros Hms. revert n.
  induction Hms as [|m es ms ess (t & g & -> & Hy) _ IH]; intros n.
  - simpl. case_decide.
    + by replace n with 0 by lia.
    + by rewrite Nat.sub_0_r.
  - simpl app. rewrite (seen_chain_yields_cons _ _ _ _ _ Hy).
    cbn [concat]. rewrite length_app.
    case_decide.
    + rewrite decide_True by lia. by rewrite take_app_le.
    + rewrite IH. rewrite take_app_ge by lia.
      replace (n - length es - length (concat ess))
        with (n - (length es + length (concat ess))) by lia.
      repeat case_decide; try lia; cbn [fst snd]; by rewrite ?app_assoc.
Qed.

(** *** Unfolding the orchestrators *)

Lemma parser_unfold urls kwargs :
  parser' () urls false kwargs =
  ([], Ok (VIter (multiplex (sequential_source' <$> urls)), false)).
Proof.
  unfold parser, imap, iter; simpl.
  by rewrite <- !list_fmap_compose.
Qed.

Lemma sequential_source_ok u l c d :
  abspath u = Some l → blocking_read l = Some c → feed_syntax c = Some d →
  sequential_source' u =
  ([EvResolve u; EvRead l; EvParse c], Ok (gen_entries d)).
Proof.
  intros Hl Hc Hd.
  unfold sequential_source, get_abspath, urlopen_read, parse. cbn.
  rewrite Hl. cbn. rewrite Hc. cbn. by rewrite Hd.
Qed.

Lemma sequential_source_fails u e :
  source_fails' u e → ∃ t, sequential_source' u = (t, Raise e).
Proof.
  unfold sequential_source, get_abspath, urlopen_read, parse.
  intros [[Hl ->]|[(l & Hl & Hc & ->)|(l & c & Hl & Hc & Hd & ->)]]; cbn;
    rewrite Hl; cbn; [by eexists|..]; rewrite Hc; cbn; [by eexists|].
  rewrite Hd. by eexists.
Qed.

Lemma deferred_source_ok c d :
  feed_syntax c = Some d →
  deferred_source' c = ([EvParse c], Ok (gen_entries d)).
Proof. intros Hd. unfold deferred_source, parse. cbn. by rewrite Hd. Qed.

Lemma deferred_source_fails c :
  feed_syntax c = None →
  deferred_source' c = ([EvParse c], Raise (ParseError c)).
Proof. intros Hd. unfold deferred_source, parse. cbn. by rewrite Hd. Qed.

Lemma get_abspath_None u :
  abspath u = None →
  get_abspath abspath u = ([EvResolve u], Raise (ResolutionError u)).
Proof. intros Hl. unfold get_abspath. cbn. by rewrite Hl. Qed.

Lemma force_resolve urls ls :
  Forall2 (λ u l, abspath u = Some l) urls ls →
  force (imap (get_abspath abspath) (iter urls)) = (EvResolve <$> urls, Ok ls).
Proof.
  induction 1 as [|u l urls ls Hl _ IH]; [done|].
  rewrite force_imap_cons, IH. unfold get_abspath. cbn.
  rewrite Hl. cbn. by rewrite app_nil_r.
Qed.

Lemma force_resolve_fail urls :
  Exists (λ u, abspath u = None) urls →
  ∃ t e, force (imap (get_abspath abspath) (iter urls)) = (t, Raise e).
Proof.
  induction 1 as [u urls Hl|u urls _ (t & e & IH)];
    rewrite force_imap_cons.
  - rewrite (get_abspath_None _ Hl). by eexists _, _.
  - rewrite IH.
    destruct (get_abspath abspath u) as [t0 [l|e0]]; by eexists _, _.
Qed.

Lemma urlRead_Ok l c :
  deferred_read l = Some c ↔ urlRead deferred_read l = Ok c.
Proof. unfold urlRead. destruct (deferred_read l); split; congruence. Qed.

Lemma asyncParser_ok sched urls kwargs ls cs :
  Forall2 (λ u l, abspath u = Some l) urls ls →
  Forall2 (λ l c, deferred_read l = Some c) ls cs →
  ∃ tdone, tdone ≡ₚ EvDone <$> ls ∧
    asyncParser' sched () urls false kwargs =
    ((EvResolve <$> urls) ++ (EvIssue <$> ls) ++ tdone,
     Ok (VIter (multiplex (deferred_source' <$> cs)), false)).
Proof.
  intros Hls Hcs.
  destruct (asyncImap_ok (urlRead deferred_read) sched
              (imap (get_abspath abspath) (iter urls))
              (EvResolve <$> urls) ls cs) as (tdone & Hperm & Hrun).
  { by apply force_resolve. }
  { eapply Forall2_impl; [done|]. intros l c. apply urlRead_Ok. }
  exists tdone. split; [done|].
  unfold asyncParser. cbn. rewrite Hrun. cbn.
  unfold imap, iter. rewrite <- !list_fmap_compose.
  by rewrite !app_nil_r.
Qed.

Lemma asyncParser_fail sched urls kwargs :
  Exists (λ u, abspath u = None) urls ∨
  (∃ ls, Forall2 (λ u l, abspath u = Some l) urls ls ∧
         Exists (λ l, deferred_read l = None) ls) →
  ∃ t e, asyncParser' sched () urls false kwargs = (t, Raise e).
Proof.
  intros [Hres|(ls & Hls & Hread)].
  - destruct (force_resolve_fail urls Hres) as (t & e & Hf).
    exists t, e. unfold asyncParser. cbn.
    by rewrite (asyncImap_fail_force _ _ _ _ _ Hf).
  - destruct (asyncImap_fail_read (urlRead deferred_read) sched
                (imap (get_abspath abspath) (iter urls))
                (EvResolve <$> urls) ls) as (t & e & Hrun).
    { by apply force_resolve. }
    { eapply Exists_impl; [done|]. intros l Hl. unfold urlRead.
      rewrite Hl. by eexists. }
    exists t, e. unfold asyncParser. cbn. by rewrite Hrun.
Qed.

(** *** Sources that deliver, sources that fail *)

Lemma seen_chain_complete (ms : lazylist gen) ess n :
  Forall2 (λ m es, ∃ t g, m = (t, Ok g) ∧ yields' g es) ms ess →
  seen (drain n (chain None ms)) =
  (take n (concat ess),
   if decide (n ≤ length (concat ess)) then Running else Stopped).
Proof.
  intros Hms. rewrite <- (app_nil_r ms).
  rewrite (seen_chain_sources _ _ _ _ Hms).
  case_decide; [done|]. rewrite drain_chain_nil.
  destruct (n - length (concat ess)) eqn:Hn; [lia|].
  cbn [seen fst snd]. by rewrite app_nil_r, take_ge by lia.
Qed.

Lemma seen_chain_failing (ms post : lazylist gen) ess t e n :
  Forall2 (λ m es, ∃ t g, m = (t, Ok g) ∧ yields' g es) ms ess →
  seen (drain n (chain None (ms ++ (t, Raise e) :: post))) =
  if decide (n ≤ length (concat ess)) then (take n (concat ess), Running)
  else (concat ess, Raised e).
Proof.
  intros Hms. rewrite (seen_chain_sources _ _ _ _ Hms).
  case_decide; [done|].
  destruct (n - length (concat ess)) eqn:Hn; [lia|].
  rewrite drain_chain_cons_raise. cbn [seen fst snd]. by rewrite app_nil_r.
Qed.

Lemma sequential_sources_yield urls ess :
  Forall2 source_entries' urls ess →
  Forall2 (λ m es, ∃ t g, m = (t, Ok g) ∧ yields' g es)
          (sequential_source' <$> urls) ess.
Proof.
  intros Hs. apply Forall2_fmap_l. eapply Forall2_impl; [done|].
  intros u es (l & c & d & Hl & Hc & Hd & Hy).
  eexists _, _. split; [|done]. by apply sequential_source_ok.
Qed.

Lemma deferred_sources_yield urls ls cs ess :
  Forall2 (λ u l, abspath u = Some l) urls ls →
  Forall2 (λ l c, blocking_read l = Some c) ls cs →
  Forall2 source_entries' urls ess →
  Forall2 (λ m es, ∃ t g, m = (t, Ok g) ∧ yields' g es)
          (deferred_source' <$> cs) ess.
Proof.
  intros Hls. revert cs ess.
  induction Hls as [|u l urls ls Hl _ IH]; intros cs ess Hcs Hs.
  - inversion Hcs; subst. inversion Hs; subst. constructor.
  - inversion Hcs as [|? c ? cs' Hc Hcs']; subst.
    inversion Hs as [|? es ? ess' (l' & c' & d & Hl' & Hc' & Hd & Hy) Hs'];
      subst.
    rewrite fmap_cons. constructor; [|by apply IH].
    eexists _, _. split; [|done]. apply deferred_source_ok. congruence.
Qed.

Lemma retrieved_split urls :
  Forall source_retrieved' urls →
  ∃ ls cs, Forall2 (λ u l, abspath u = Some l) urls ls ∧
           Forall2 (λ l c, blocking_read l = Some c) ls cs.
Proof.
  induction 1 as [|u urls (l & c & Hl & Hc) _ (ls & cs & Hls & Hcs)].
  - exists [], []. by split.
  - exists (l :: ls), (c :: cs). by split; constructor.
Qed.

Lemma source_entries_retrieved urls ess :
  Forall2 source_entries' urls ess → Forall source_retrieved' urls.
Proof.
  induction 1 as [|u es urls ess (l & c & d & Hl & Hc & _) _ IH];
    constructor; [by exists l, c|done].
Qed.

(** ** Order of the merged output *)

(** C2. When every source is fetched without error and source [k]
    normalizes to the entries [ess !! k], the merged sequence of either
    orchestrator is the concatenation of the [ess] in the order the
    sources were listed, and then ends: asking for [n] entries gives the
    first [n] of the concatenation.  For the concurrent orchestrator this
    holds for every order [sched] in which the reads complete.  For two
    sources with entries [a1; a2] and [b1; b2] the output is
    [a1; a2; b1; b2]. *)
Theorem merge_preserves_source_order sched urls ess kwargs :
  (∀ l, deferred_read l = blocking_read l) →
  Forall2 source_entries' urls ess →
  (∃ f, parser' () urls false kwargs = ([], Ok (VIter f, false)) ∧
        ∀ n, seen (drain n f) =
             (take n (concat ess),
              if decide (n ≤ length (concat ess)) then Running
              else Stopped)) ∧
  (∃ t f, asyncParser' sched () urls false kwargs =
            (t, Ok (VIter f, false)) ∧
          ∀ n, seen (drain n f) =
               (take n (concat ess),
                if decide (n ≤ length (concat ess)) then Running
                else Stopped)).
Proof.
  intros Hsame Hs. split.
  - eexists. split; [apply parser_unfold|]. intros n.
    apply seen_chain_complete. by apply sequential_sources_yield.
  - destruct (retrieved_split urls) as (ls & cs & Hls & Hcs).
    { by eapply source_entries_retrieved. }
    destruct (asyncParser_ok sched urls kwargs ls cs) as (td & _ & Hrun).
    { done. }
    { eapply Forall2_impl; [done|]. intros l c. by rewrite Hsame. }
    eexists _, _. split; [done|]. intros n.
    apply seen_chain_complete. by eapply deferred_sources_yield.
Qed.

(** ** Failures *)

(** C3. Let the sources before [u] be fetched without error and let [u]
    fail with [e] in resolution, retrieval or parsing.  Sequential mode:
    the consumer of the merged sequence receives the entries of the
    earlier sources and then the exception [e]; the sequence never ends
    normally, so no successful result made of the earlier entries
    exists.  Concurrent mode: either the call itself fails, and it does
    so whenever [u] fails before parsing, or the merged sequence behaves
    as in sequential mode. *)
Theorem failure_propagates sched pre u post ess e kwargs :
  (∀ l, deferred_read l = blocking_read l) →
  Forall2 source_entries' pre ess →
  source_fails' u e →
  (∃ f, parser' () (pre ++ u :: post) false kwargs =
          ([], Ok (VIter f, false)) ∧
        ∀ n, seen (drain n f) =
             if decide (n ≤ length (concat ess))
             then (take n (concat ess), Running)
             else (concat ess, Raised e)) ∧
  ((∃ t e', asyncParser' sched () (pre ++ u :: post) false kwargs =
              (t, Raise e')) ∨
   (∃ t f, asyncParser' sched () (pre ++ u :: post) false kwargs =
             (t, Ok (VIter f, false)) ∧
           ∀ n, seen (drain n f) =
                if decide (n ≤ length (concat ess))
                then (take n (concat ess), Running)
                else (concat ess, Raised e))) ∧
  ((∀ c, e ≠ ParseError c) →
   ∃ t e', asyncParser' sched () (pre ++ u :: post) false kwargs =
             (t, Raise e')).
Proof.
  intros Hsame Hpre Hu.
  assert (∀ ls, Forall2 (λ u l, abspath u = Some l) (pre ++ u :: post) ls →
            Forall (λ l, is_Some (deferred_read l)) ls →
            ∃ ls1 l ls2 c, ls = ls1 ++ l :: ls2 ∧
              Forall2 (λ u l, abspath u = Some l) pre ls1 ∧
              abspath u = Some l ∧ blocking_read l = Some c ∧
              feed_syntax c = None ∧ e = ParseError c) as Hparse.
  { intros ls Hls Hall.
    apply Forall2_app_inv_l in Hls as (ls1 & ls' & Hls1 & Hls' & ->).
    apply Forall2_cons_inv_l in Hls' as (l & ls2 & Hl & Hls2 & ->).
    apply Forall_app in Hall as [_ Hall].
    apply Forall_cons in Hall as [[c Hc] _]. rewrite Hsame in Hc.
    exists ls1, l, ls2, c. split_and!; try done;
      destruct Hu as [[Hl' ->]|[(l' & Hl' & Hc' & ->)|(l' & c' & Hl' & Hc' & Hd & ->)]];
      congruence. }
  split_and!.
  - eexists. split; [apply parser_unfold|]. intros n.
    destruct (sequential_source_fails u e Hu) as [t Ht].
    rewrite fmap_app, fmap_cons, Ht.
    apply seen_chain_failing. by apply sequential_sources_yield.
  - destruct (all_or_fail abspath (pre ++ u :: post)) as [[ls Hls]|Hres];
      [|left; apply asyncParser_fail; by left].
    destruct (all_or_fail deferred_read ls) as [[cs Hcs]|Hread];
      [|left; apply asyncParser_fail; right; by exists ls].
    right.
    destruct (asyncParser_ok sched _ kwargs ls cs Hls Hcs)
      as (td & _ & Hrun).
    eexists _, _. split; [done|]. intros n.
    destruct (Hparse ls Hls)
      as (ls1 & l & ls2 & c & -> & Hls1 & Hl & Hc & Hd & ->).
    { eapply Forall2_Forall_l; [done|]. apply Forall_true. eauto. }
    apply Forall2_app_inv_l in Hcs as (cs1 & cs' & Hcs1 & Hcs' & ->).
    apply Forall2_cons_inv_l in Hcs' as (c' & cs2 & Hc' & Hcs2 & ->).
    rewrite Hsame in Hc'. replace c' with c by congruence.
    rewrite fmap_app, fmap_cons, (deferred_source_fails c Hd).
    apply seen_chain_failing.
    eapply deferred_sources_yield; [done| |done].
    eapply Forall2_impl; [exact Hcs1|]. intros l0 c0 H0.
    by rewrite <- Hsame.
  - intros Hnp. apply asyncParser_fail.
    destruct (all_or_fail abspath (pre ++ u :: post)) as [[ls Hls]|Hres];
      [|by left].
    right. exists ls. split; [done|].
    destruct (decide (Forall (λ l, is_Some (deferred_read l)) ls))
      as [Hall|Hex].
    + destruct (Hparse ls Hls Hall) as (? & ? & ? & c & _ & _ & _ & _ & _ & ->).
      by destruct (Hnp c).
    + apply not_Forall_Exists in Hex; [|apply _].
      eapply Exists_impl; [done|]. intros l. simpl.
      rewrite <- eq_None_not_Some. done.
Qed.

(** ** The two orchestrators side by side *)

Lemma source_outcomes_agree urls ls cs :
  Forall2 (λ u l, abspath u = Some l) urls ls →
  Forall2 (λ l c, blocking_read l = Some c) ls cs →
  Forall2 (λ m1 m2 : M gen, m1.2 = m2.2)
          (sequential_source' <$> urls) (deferred_source' <$> cs).
Proof.
  intros Hls. revert cs.
  induction Hls as [|u l urls ls Hl _ IH]; intros cs Hcs.
  - inversion Hcs; subst. constructor.
  - inversion Hcs as [|? c ? cs' Hc Hcs']; subst.
    rewrite !fmap_cons. constructor; [|by apply IH].
    unfold sequential_source, deferred_source, get_abspath, urlopen_read,
      parse.
    cbn. rewrite Hl. cbn. rewrite Hc. cbn. by destruct (feed_syntax c).
Qed.

(** C4, as far as it holds.  When [skip] is true, or when every source
    is resolved and read without error, a caller sees the same from both
    orchestrators, whatever the order in which the reads complete: the
    same flag, the same entries in the same order and the same ending
    (the normal end, or the parse error of the same source). *)
Theorem orchestrators_agree_when_retrieved sched urls skip kwargs n :
  (∀ l, deferred_read l = blocking_read l) →
  skip = true ∨ Forall source_retrieved' urls →
  observe n (parser' () urls skip kwargs) =
  observe n (asyncParser' sched () urls skip kwargs).
Proof.
  intros Hsame Hcase. destruct skip; [done|].
  destruct Hcase as [|Hret]; [done|].
  destruct (retrieved_split urls Hret) as (ls & cs & Hls & Hcs).
  destruct (asyncParser_ok sched urls kwargs ls cs) as (td & _ & Hrun).
  { done. }
  { eapply Forall2_impl; [exact Hcs|]. intros l c H0. by rewrite Hsame. }
  rewrite Hrun, parser_unfold. unfold observe; cbn [snd].
  pose proof (seen_chain_ext _ _ None n
                (source_outcomes_agree urls ls cs Hls Hcs)) as Heq.
  unfold seen in Heq. unfold multiplex. by injection Heq as -> ->.
Qed.

(** ** Laziness *)

(** C5. Sequential mode.  The call does no work (its trace is empty).
    While the sources [urls1] alone can serve the consumer's requests,
    the run over [urls1 ++ urls2] is the run over [urls1]: same
    entries, same trace, so nothing has been done for any source of
    [urls2].  In particular the first entry of a merge whose first
    source has one costs one resolution, one read, one parse and one
    step of the normalizer, all of the first source. *)
Theorem sequential_fetch_is_lazy urls1 urls2 kwargs :
  (∃ f1 f12,
     parser' () urls1 false kwargs = ([], Ok (VIter f1, false)) ∧
     parser' () (urls1 ++ urls2) false kwargs =
       ([], Ok (VIter f12, false)) ∧
     ∀ n, (drain n f1).2 ≠ Stopped → drain n f12 = drain n f1) ∧
  (∀ u l c d a g,
     abspath u = Some l → blocking_read l = Some c →
     feed_syntax c = Some d → gen_resume (gen_entries d) = Some (a, g) →
     ∃ f, parser' () (u :: urls2) false kwargs =
            ([], Ok (VIter f, false)) ∧
          drain 1 f =
            ([EvResolve u; EvRead l; EvParse c; EvNormalize], [a], Running)).
Proof.
  split.
  - eexists _, _. split_and!; [apply parser_unfold..|].
    intros n Hst. rewrite fmap_app. by apply drain_chain_app.
  - intros u l c d a g Hl Hc Hd Hg.
    eexists. split; [apply parser_unfold|].
    rewrite fmap_cons, (sequential_source_ok u l c d Hl Hc Hd).
    unfold multiplex, M. rewrite drain_chain_cons_ok, drain_chain_some.
    cbn [drain]. unfold next at 1 2, gen_iter. cbn. rewrite Hg. done.
Qed.

(** ** The returned flag *)

(** C7. Whenever an orchestrator returns a pair, its second component is
    the [skip] it was given.  And it does return one: [parser] whenever
    [skip] is false or a fallback is supplied, [asyncParser] whenever a
    fallback is supplied with [skip] true, or every source is resolved
    and read with [skip] false. *)
Theorem skip_flag_unchanged sched urls skip kwargs :
  (∀ t v b, parser' () urls skip kwargs = (t, Ok (v, b)) → b = skip) ∧
  (∀ t v b, asyncParser' sched () urls skip kwargs = (t, Ok (v, b)) →
            b = skip) ∧
  (skip = false ∨ is_Some (kwargs !! "feed") →
   ∃ v, parser' () urls skip kwargs = ([], Ok (v, skip))) ∧
  ((skip = true ∧ is_Some (kwargs !! "feed")) ∨
   (skip = false ∧ ∃ ls cs,
      Forall2 (λ u l, abspath u = Some l) urls ls ∧
      Forall2 (λ l c, deferred_read l = Some c) ls cs) →
   ∃ t v, asyncParser' sched () urls skip kwargs = (t, Ok (v, skip))).
Proof.
  split_and!.
  - intros t v b. unfold parser, getitem.
    destruct skip; [destruct (kwargs !! "feed")|]; cbn; congruence.
  - intros t v b. unfold asyncParser, getitem.
    destruct skip; [destruct (kwargs !! "feed"); cbn; congruence|].
    destruct (asyncImap _ _ _) as [t' [cs|e]]; cbn; congruence.
  - intros [->|[F HF]].
    + rewrite parser_unfold. by eexists.
    + destruct skip; [|rewrite parser_unfold; by eexists].
      exists F. unfold parser, getitem. by rewrite HF.
  - intros [[-> [F HF]]|[-> (ls & cs & Hls & Hcs)]].
    + exists [], F. unfold asyncParser, getitem. by rewrite HF.
    + destruct (asyncParser_ok sched urls kwargs ls cs Hls Hcs)
        as (td & _ & Hrun).
      by eexists _, _.
Qed.

(** C6. Concurrent mode.  The result is available exactly when every
    source has been resolved and read without error, under every order
    of completion.  At that moment the trace holds the resolutions, the
    issue of every read and the completion of every read, and nothing
    else: no content has been parsed and no entry normalized.  The feed
    is the merge of the suspended parse-and-normalize of each content in
    source order; draining it only parses and normalizes, and only for
    the sources the consumer has reached. *)
Theorem concurrent_fetch_awaits_all_reads sched urls kwargs :
  (∀ t v, asyncParser' sched () urls false kwargs = (t, Ok v) →
     ∃ ls cs tdone,
       Forall2 (λ u l, abspath u = Some l) urls ls ∧
       Forall2 (λ l c, deferred_read l = Some c) ls cs ∧
       tdone ≡ₚ EvDone <$> ls ∧
       t = (EvResolve <$> urls) ++ (EvIssue <$> ls) ++ tdone ∧
       v = (VIter (multiplex (deferred_source' <$> cs)), false)) ∧
  (∀ ls cs,
     Forall2 (λ u l, abspath u = Some l) urls ls →
     Forall2 (λ l c, deferred_read l = Some c) ls cs →
     ∃ t v, asyncParser' sched () urls false kwargs = (t, Ok v)) ∧
  (∀ cs1 cs2 n,
     (drain n (multiplex (deferred_source' <$> cs1))).2 ≠ Stopped →
     drain n (multiplex (deferred_source' <$> (cs1 ++ cs2))) =
     drain n (multiplex (deferred_source' <$> cs1))) ∧
  (∀ cs n,
     Forall (λ ev, ev = EvNormalize ∨ ∃ c, ev = EvParse c)
            (drain n (multiplex (deferred_source' <$> cs))).1.1).
Proof using abspath deferred_read feed_syntax gen_entries gen_resume.
  split_and!.
  - intros t v Hrun.
    destruct (all_or_fail abspath urls) as [[ls Hls]|Hres].
    2: { destruct (asyncParser_fail sched urls kwargs) as (t' & e & Hf);
           [by left|congruence]. }
    destruct (all_or_fail deferred_read ls) as [[cs Hcs]|Hread].
    2: { destruct (asyncParser_fail sched urls kwargs) as (t' & e & Hf);
           [right; by exists ls|congruence]. }
    destruct (asyncParser_ok sched urls kwargs ls cs Hls Hcs)
      as (td & Hperm & Hrun').
    rewrite Hrun' in Hrun. injection Hrun as <- <-.
    by exists ls, cs, td.
  - intros ls cs Hls Hcs.
    destruct (asyncParser_ok sched urls kwargs ls cs Hls Hcs)
      as (td & _ & Hrun).
    by eexists _, _.
  - intros cs1 cs2 n Hst. rewrite fmap_app. by apply drain_chain_app.
  - intros cs n. apply drain_chain_trace.
    + apply Forall_fmap, Forall_true. intros c.
      unfold deferred_source, parse. cbn.
      destruct (feed_syntax c); cbn;
        (constructor; [right; by eexists|constructor]).
    + intros g k. eapply Forall_impl; [apply drain_gen_trace|].
      intros ev ->. by left.
Qed.

(** ** Finiteness of the merged sequence *)

Lemma status_chain_cons (g : gen) (rest : lazylist gen) n :
  (drain (S n) (chain None (mret g :: rest))).2 =
  match (drain (S n) g).2 with
  | Stopped =>
      (drain (S n - length (drain (S n) g).1.2) (chain None rest)).2
  | st => st
  end.
Proof.
  change (mret g : M gen) with (([], Ok g) : M gen). unfold M.
  rewrite drain_chain_cons_ok, prefix_status, drain_chain_some.
  unfold and_then. by destruct (drain (S n) g) as [[t xs] []].
Qed.

(** C8. The merge of the sequences [gs] of the normalizer reaches its
    end if and only if each of them does; and if one of them is
    infinite, so is the merge: however many entries are asked for, the
    consumption is still under way. *)
Theorem merged_finite_iff_all_finite (gs : list gen) :
  (finite (multiplex (iter gs)) ↔ Forall finite gs) ∧
  (Exists infinite gs → infinite (multiplex (iter gs))).
Proof.
  unfold multiplex, iter. split.
  - induction gs as [|g gs IH]; [split; [done|by exists 1]|].
    rewrite fmap_cons, Forall_cons. split.
    + intros [[|n] Hn]; [done|]. rewrite status_chain_cons in Hn.
      destruct (drain (S n) g).2 eqn:Hg; try done.
      split; [by exists (S n)|]. apply IH. by eexists.
    + intros [[n1 H1] Hgs]. apply IH in Hgs as [n2 H2].
      destruct n1 as [|n1]; [done|].
      exists (S (n1 + n2)). rewrite status_chain_cons.
      rewrite (drain_mono (S n1) (S (n1 + n2)) g) by (lia || congruence).
      rewrite H1.
      pose proof (drain_length (S n1) g).
      set (k := length _) in *.
      rewrite (drain_mono n2 (S (n1 + n2) - k)); [done|lia|by rewrite H2].
  - induction 1 as [g gs Hg|g gs _ IH]; intros [|n]; try done;
      rewrite fmap_cons, status_chain_cons.
    + by rewrite Hg.
    + destruct (drain (S n) g).2 eqn:Hg; [done|apply IH|].
      by apply drain_gen_not_raised in Hg.
Qed.

(** ** The skip contract *)

(** C1. With [skip] true both orchestrators return the fallback feed
    found under ['feed'] as it is, paired with [true], and do no work:
    the trace of the call is empty, so nothing was resolved, read or
    parsed.  This holds for every list of sources and every fallback. *)
Theorem skip_returns_fallback sched urls (F : value entry) kwargs :
  kwargs !! "feed" = Some F →
  parser' () urls true kwargs = ([], Ok (F, true)) ∧
  asyncParser' sched () urls true kwargs = ([], Ok (F, true)).
Proof.
  intros HF. unfold parser, asyncParser, getitem. by rewrite HF.
Qed.

(** C9. With [skip] true and no ['feed'] among the keyword arguments both
    orchestrators fail with [KeyError 'feed']; no default and no empty
    sequence is put in its place. *)
Theorem skip_without_feed_raises sched urls (kwargs : gmap string (value entry)) :
  kwargs !! "feed" = None →
  parser' () urls true kwargs = ([], Raise (KeyError "feed")) ∧
  asyncParser' sched () urls true kwargs = ([], Raise (KeyError "feed")).
Proof.
  intros HF. unfold parser, asyncParser, getitem. by rewrite HF.
Qed.

(** C10. With [skip] false the fallback is never read: two runs whose
    keyword arguments differ only in ['feed'] give the same result, for
    [parser] and for [asyncParser]. *)
Theorem retrieval_ignores_fallback sched urls
    (kwargs kwargs' : gmap string (value entry)) :
  delete "feed" kwargs = delete "feed" kwargs' →
  parser' () urls false kwargs = parser' () urls false kwargs' ∧
  asyncParser' sched () urls false kwargs =
    asyncParser' sched () urls false kwargs'.
Proof. done. Qed.

End FetchFacts.

(** * The properties on the concrete instance *)

(** Two sources, both fine: the sequential run, request by request. *)
Example demo_sequential_run :
  observe 2 (Demo.parser () ["A"; "C"] false ∅) =
    ObsFeed ["</A>1"; "</A>2"] Running false ∧
  observe 5 (Demo.parser () ["A"; "C"] false ∅) =
    ObsFeed ["</A>1"; "</A>2"; "</C>1"; "</C>2"] Stopped false.
Proof. by split. Qed.

(** The order of completion shows in the trace of the concurrent call and
    nowhere else. *)
Example demo_completion_order :
  (Demo.asyncParser [0; 0] () ["A"; "C"] false ∅).1 =
    [EvResolve "A"; EvResolve "C"; EvIssue "/A"; EvIssue "/C";
     EvDone "/A"; EvDone "/C"] ∧
  (Demo.asyncParser [1; 0] () ["A"; "C"] false ∅).1 =
    [EvResolve "A"; EvResolve "C"; EvIssue "/A"; EvIssue "/C";
     EvDone "/C"; EvDone "/A"] ∧
  observe 5 (Demo.asyncParser [0; 0] () ["A"; "C"] false ∅) =
  observe 5 (Demo.asyncParser [1; 0] () ["A"; "C"] false ∅).
Proof. by split_and!. Qed.

Lemma demo_sources_AC :
  Forall2 (source_entries Demo.abspath Demo.read Demo.feed_syntax
             Demo.gen_entries Demo.gen_resume)
          ["A"; "C"] [["</A>1"; "</A>2"]; ["</C>1"; "</C>2"]].
Proof.
  repeat constructor.
  - exists "/A", "</A>", ["</A>1"; "</A>2"].
    split_and!; try reflexivity. by repeat econstructor.
  - exists "/C", "</C>", ["</C>1"; "</C>2"].
    split_and!; try reflexivity. by repeat econstructor.
Defined.

Lemma demo_cycle_infinite :
  infinite (Iter0 := gen_iter Demo.gen_resume) (true, ["x"]).
Proof.
  intros n. induction n as [|n IH]; [reflexivity|].
  cbn [drain]. unfold next at 1, gen_iter. cbn. exact IH.
Defined.

Lemma skip_returns_fallback_witness :
  ({["feed" := VIter Demo.empty_feed]} : gmap string (value string)) !! "feed"
    = Some (VIter Demo.empty_feed) ∧
  Demo.parser () ["A"; "B"] true {["feed" := VIter Demo.empty_feed]} =
    ([], Ok (VIter Demo.empty_feed, true)) ∧
  Demo.asyncParser [1; 0] () ["A"; "B"] true
    {["feed" := VIter Demo.empty_feed]} =
    ([], Ok (VIter Demo.empty_feed, true)).
Proof.
  split; [reflexivity|].
  apply (skip_returns_fallback Demo.abspath Demo.read Demo.read
           Demo.feed_syntax Demo.gen_entries Demo.gen_resume).
  reflexivity.
Defined.

Lemma skip_without_feed_raises_witness :
  (∅ : gmap string (value string)) !! "feed" = None ∧
  Demo.parser () ["A"; "B"] true ∅ = ([], Raise (KeyError "feed")) ∧
  Demo.asyncParser [1; 0] () ["A"; "B"] true ∅ =
    ([], Raise (KeyError "feed")).
Proof.
  split; [reflexivity|].
  apply (skip_without_feed_raises Demo.abspath Demo.read Demo.read
           Demo.feed_syntax Demo.gen_entries Demo.gen_resume).
  reflexivity.
Defined.

Lemma retrieval_ignores_fallback_witness :
  delete "feed" ({["feed" := VStr "old"]} : gmap string (value string)) =
    delete "feed" ∅ ∧
  Demo.parser () ["A"; "C"] false {["feed" := VStr "old"]} =
    Demo.parser () ["A"; "C"] false ∅ ∧
  Demo.asyncParser [1; 0] () ["A"; "C"] false {["feed" := VStr "old"]} =
    Demo.asyncParser [1; 0] () ["A"; "C"] false ∅.
Proof.
  split; [reflexivity|].
  apply (retrieval_ignores_fallback Demo.abspath Demo.read Demo.read
           Demo.feed_syntax Demo.gen_entries Demo.gen_resume).
  reflexivity.
Defined.

Lemma merge_preserves_source_order_witness :
  (∃ f, Demo.parser () ["A"; "C"] false ∅ = ([], Ok (VIter f, false)) ∧
        seen (drain 5 f) = (["</A>1"; "</A>2"; "</C>1"; "</C>2"], Stopped)) ∧
  (∃ t f, Demo.asyncParser [1; 0] () ["A"; "C"] false ∅ =
            (t, Ok (VIter f, false)) ∧
          seen (drain 5 f) = (["</A>1"; "</A>2"; "</C>1"; "</C>2"], Stopped)).
Proof.
  destruct (merge_preserves_source_order Demo.abspath Demo.read Demo.read
              Demo.feed_syntax Demo.gen_entries Demo.gen_resume
              [1; 0] ["A"; "C"] [["</A>1"; "</A>2"]; ["</C>1"; "</C>2"]] ∅
              (λ l, eq_refl) demo_sources_AC)
    as [(f & Hf & Hseq) [t [g [Hg Hconc]]]].
  split.
  - exists f. split; [exact Hf|]. exact (Hseq 5).
  - exists t, g. split; [exact Hg|]. exact (Hconc 5).
Defined.

Lemma failure_propagates_witness :
  (∃ f, Demo.parser () ["A"; "B"; "C"] false ∅ =
          ([], Ok (VIter f, false)) ∧
        seen (drain 2 f) = (["</A>1"; "</A>2"], Running) ∧
        seen (drain 3 f) =
          (["</A>1"; "</A>2"], Raised (RetrievalError "/B"))) ∧
  (∃ t e', Demo.asyncParser [1; 0] () ["A"; "B"; "C"] false ∅ =
             (t, Raise e')).
Proof.
  destruct (failure_propagates Demo.abspath Demo.read Demo.read
              Demo.feed_syntax Demo.gen_entries Demo.gen_resume
              [1; 0] ["A"] "B" ["C"] [["</A>1"; "</A>2"]]
              (RetrievalError "/B") ∅ (λ l, eq_refl))
    as [(f & Hf & Hseq) [_ Hconc]].
  - pose proof demo_sources_AC as Hs.
    apply Forall2_cons_1 in Hs as [Hs _]. by constructor.
  - right. left. by exists "/B".
  - split.
    + exists f. split; [exact Hf|]. split; [exact (Hseq 2)|exact (Hseq 3)].
    + apply Hconc. discriminate.
Defined.

Lemma orchestrators_agree_when_retrieved_witness :
  Forall (source_retrieved Demo.abspath Demo.read) ["A"; "X"] ∧
  observe 3 (Demo.parser () ["A"; "X"] false ∅) =
  observe 3 (Demo.asyncParser [1; 0] () ["A"; "X"] false ∅).
Proof.
  assert (Forall (source_retrieved Demo.abspath Demo.read) ["A"; "X"])
    as Hret.
  { repeat constructor; [by exists "/A", "</A>"|by exists "/X", "</X>"]. }
  split; [exact Hret|].
  apply (orchestrators_agree_when_retrieved Demo.abspath Demo.read Demo.read
           Demo.feed_syntax Demo.gen_entries Demo.gen_resume).
  - reflexivity.
  - by right.
Defined.

(** C4 as stated fails.  The second source cannot be read.  [parser]
    returns and delivers the first entry of the first source;
    [asyncParser] fails as a whole and delivers nothing. *)
Lemma orchestrators_differ_on_failed_read :
  observe 1 (Demo.parser () ["A"; "B"] false ∅) =
    ObsFeed ["</A>1"] Running false ∧
  observe 1 (Demo.asyncParser [0; 0] () ["A"; "B"] false ∅) =
    ObsRaise (RetrievalError "/B") ∧
  observe 1 (Demo.parser () ["A"; "B"] false ∅) ≠
  observe 1 (Demo.asyncParser [0; 0] () ["A"; "B"] false ∅).
Proof. by split_and!. Qed.

Lemma sequential_fetch_is_lazy_witness :
  ∃ f, Demo.parser () ["A"; "C"] false ∅ = ([], Ok (VIter f, false)) ∧
       drain 1 f =
         ([EvResolve "A"; EvRead "/A"; EvParse "</A>"; EvNormalize],
          ["</A>1"], Running).
Proof.
  apply (proj2 (sequential_fetch_is_lazy Demo.abspath Demo.read
                  Demo.feed_syntax Demo.gen_entries Demo.gen_resume
                  [] ["C"] ∅)
           "A" "/A" "</A>" ["</A>1"; "</A>2"] "</A>1" (false, ["</A>2"]));
    reflexivity.
Defined.

Lemma concurrent_fetch_awaits_all_reads_witness :
  ∃ t v, Demo.asyncParser [1; 0] () ["A"; "C"] false ∅ = (t, Ok v) ∧
    ∃ ls cs tdone,
      Forall2 (λ u l, Demo.abspath u = Some l) ["A"; "C"] ls ∧
      Forall2 (λ l c, Demo.read l = Some c) ls cs ∧
      tdone ≡ₚ EvDone <$> ls ∧
      t = [EvResolve "A"; EvResolve "C"] ++ (EvIssue <$> ls) ++ tdone ∧
      v = (VIter (multiplex (Iter0 := gen_iter Demo.gen_resume)
                    (deferred_source Demo.feed_syntax Demo.gen_entries
                       <$> cs)), false).
Proof.
  destruct (concurrent_fetch_awaits_all_reads Demo.abspath Demo.read
              Demo.feed_syntax Demo.gen_entries Demo.gen_resume
              [1; 0] ["A"; "C"] ∅) as (Hshape & Hready & _ & _).
  destruct (Hready ["/A"; "/C"] ["</A>"; "</C>"]) as (t & v & Hrun).
  - by repeat constructor.
  - by repeat constructor.
  - exists t, v. split; [exact Hrun|]. exact (Hshape t v Hrun).
Defined.

Lemma skip_flag_unchanged_witness :
  (∃ v, Demo.parser () ["A"; "C"] false ∅ = ([], Ok (v, false))) ∧
  (∃ t v, Demo.asyncParser [1; 0] () ["A"; "C"] false ∅ =
            (t, Ok (v, false))).
Proof.
  destruct (skip_flag_unchanged Demo.abspath Demo.read Demo.read
              Demo.feed_syntax Demo.gen_entries Demo.gen_resume
              [1; 0] ["A"; "C"] false ∅) as (_ & _ & Hseq & Hconc).
  split.
  - apply Hseq. by left.
  - apply Hconc. right. split; [reflexivity|].
    exists ["/A"; "/C"], ["</A>"; "</C>"]. by split; repeat constructor.
Defined.

Lemma merged_finite_iff_all_finite_witness :
  finite (multiplex (Iter0 := gen_iter Demo.gen_resume)
            (iter [(false, ["a"]); (false, ["b"])])) ∧
  infinite (multiplex (Iter0 := gen_iter Demo.gen_resume)
              (iter [(false, ["a"]); (true, ["x"])])).
Proof.
  split.
  - apply (proj1 (merged_finite_iff_all_finite Demo.gen_resume _)).
    repeat constructor; by exists 2.
  - apply (proj2 (merged_finite_iff_all_finite Demo.gen_resume _)).
    right. left. exact demo_cycle_infinite.
Defined.

(** * Further properties of the two orchestrators *)

(** ** Merging a list of sources made of two parts *)

Section ConcatFacts.
Context {S A : Type} `{!Iter S A}.

Lemma and_then_running_nil (k : list event * list A * status) :
  and_then ([], [], Stopped) k = k.
Proof. by destruct k as [[t xs] st]. Qed.

Lemma drain_chain_concat_some (ms ms2 : lazylist S) :
  (∀ n, drain n (chain None (ms ++ ms2)) =
        and_then (drain n (chain None ms))
          (drain (n - length (drain n (chain None ms)).1.2)
                 (chain None ms2))) →
  ∀ (s : S) n,
    drain n (chain (Some s) (ms ++ ms2)) =
    and_then (drain n (chain (Some s) ms))
      (drain (n - length (drain n (chain (Some s) ms)).1.2)
             (chain None ms2)).
Proof.
  intros HNone s n. rewrite !drain_chain_some, HNone.
  destruct (drain n s) as [[t xs] []]; try done.
  unfold and_then; cbn [fst snd prefix].
  destruct (drain (n - length xs) (chain None ms)) as [[t' ys] []];
    cbn [fst snd prefix]; try done.
  rewrite length_app, Nat.sub_add_distr.
  unfold prefix; cbn [fst snd]. by rewrite !app_assoc.
Qed.

(** The merge of [ms ++ ms2] is the merge of [ms] followed, when that one
    has ended normally, by the merge of [ms2], which is asked for the
    entries still wanted. *)
Lemma drain_chain_concat (ms ms2 : lazylist S) n :
  drain n (chain None (ms ++ ms2)) =
  and_then (drain n (chain None ms))
    (drain (n - length (drain n (chain None ms)).1.2) (chain None ms2)).
Proof.
  revert n. induction ms as [|[t [s|e]] ms IH]; intros [|n]; try done.
  - simpl app. rewrite drain_chain_nil, and_then_running_nil. done.
  - rewrite <- app_comm_cons. unfold M. rewrite !drain_chain_cons_ok.
    rewrite (drain_chain_concat_some _ _ IH), and_then_prefix. done.
Qed.

End ConcatFacts.

(** ** Failures of the fan-out retrieval, read backwards *)

Section AwaitMore.
Variable f : string → result string.

Lemma await_raise_inv sched n pending slots t e :
  await f sched n pending slots = (t, Raise e) →
  ∃ i l, (i, l) ∈ pending ∧ f l = Raise e.
Proof.
  revert sched pending slots t.
  induction n as [|n IH]; intros sched pending slots t; [done|].
  cbn [await].
  destruct (pending !! _) as [[i l]|] eqn:Hil; [|done].
  destruct (f l) as [c|e0] eqn:Hc.
  - destruct (await f _ n _ _) as [t' [slots'|e']] eqn:Hrun; [done|].
    intros [= _ ->]. apply IH in Hrun as (i' & l' & Hin & Hl').
    exists i', l'. split; [|done].
    rewrite (delete_Permutation _ _ _ Hil). by right.
  - intros [= _ ->]. exists i, l. split; [|done].
    by eapply list_elem_of_lookup_2.
Qed.

Lemma asyncImap_raise_inv sched (abs_urls : lazylist string) t e :
  asyncImap f sched abs_urls = (t, Raise e) →
  (∃ t0, force abs_urls = (t0, Raise e)) ∨
  (∃ t0 ls l, force abs_urls = (t0, Ok ls) ∧ l ∈ ls ∧ f l = Raise e).
Proof.
  unfold asyncImap.
  destruct (force abs_urls) as [t0 [ls|e0]] eqn:Hforce.
  2: { intros [= _ ->]. left. by exists t0. }
  cbn. rewrite force_issue. cbn.
  destruct (await f _ _ _ _) as [t1 [slots|e1]] eqn:Hrun; [done|].
  intros [= _ ->]. right.
  apply await_raise_inv in Hrun as (i & l & Hin & Hl).
  exists t0, ls, l. split_and!; [done| |done].
  apply elem_of_zip_seq in Hin. by eapply list_elem_of_lookup_2.
Qed.

End AwaitMore.

(** ** More on the two orchestrators *)

Section FetchMore.
Context {doc entry gen : Type}.
Variable abspath : string → option string.
Variable blocking_read : string → option string.
Variable deferred_read : string → option string.
Variable feed_syntax : string → option doc.
Variable gen_entries : doc → gen.
Variable gen_resume : gen → option (entry * gen).

#[local] Hint Extern 0 (Iter gen _) =>
  exact (gen_iter gen_resume) : typeclass_instances.

Local Abbreviation parser' :=
  (parser abspath blocking_read feed_syntax gen_entries gen_resume).
Local Abbreviation asyncParser' :=
  (asyncParser abspath deferred_read feed_syntax gen_entries gen_resume).
Local Abbreviation sequential_source' :=
  (sequential_source abspath blocking_read feed_syntax gen_entries).
Local Abbreviation deferred_source' :=
  (deferred_source feed_syntax gen_entries).

(** X1. Fetching a list of sources made of two parts is fetching the
    first part and then, once its merged sequence has ended normally,
    the second part: the entries and the work of the run over
    [urls1 ++ urls2] are those of the run over [urls1] followed by those
    of the run over [urls2] for the entries still wanted.  If the first
    part raises, so does the whole, at the same point. *)
Theorem parser_of_concatenated_sources urls1 urls2 kwargs :
  ∃ f1 f2 f12,
    parser' () urls1 false kwargs = ([], Ok (VIter f1, false)) ∧
    parser' () urls2 false kwargs = ([], Ok (VIter f2, false)) ∧
    parser' () (urls1 ++ urls2) false kwargs =
      ([], Ok (VIter f12, false)) ∧
    ∀ n, drain n f12 =
         and_then (drain n f1) (drain (n - length (drain n f1).1.2) f2).
Proof.
  eexists _, _, _. split_and!; [apply parser_unfold..|].
  intros n. rewrite fmap_app. apply drain_chain_concat.
Qed.

(** *** The sources a run has touched *)

Lemma omap_none_all {A B : Type} (p : A → option B) (t : list A) :
  Forall (λ a, p a = None) t → omap p t = [].
Proof. induction 1 as [|a t Ha _ IH]; [done|]. simpl. by rewrite Ha. Qed.

Lemma chain_projection (src : string → M gen) (p : event → option string)
    (h : string → list string) urls n :
  (∀ u, omap p (src u).1 = h u) →
  p EvNormalize = None →
  omap p (drain n (chain None (src <$> urls))).1.1
    `prefix_of` concat (h <$> urls) ∧
  ((drain n (chain None (src <$> urls))).2 = Stopped →
   omap p (drain n (chain None (src <$> urls))).1.1 =
   concat (h <$> urls)).
Proof.
  intros Hsrc Hnorm. revert n.
  induction urls as [|u urls IH]; intros [|n];
    try (split; [apply prefix_nil|done]).
  rewrite !fmap_cons. cbn [concat]. specialize (Hsrc u).
  destruct (src u) as [t [g|e]]; cbn [fst] in Hsrc;
    unfold M.
  2: { rewrite drain_chain_cons_raise. cbn [fst snd]. rewrite Hsrc.
       split; [by apply prefix_app_r|done]. } rewrite drain_chain_cons_ok, drain_chain_some.
  assert (omap p (drain (S n) g).1.1 = []) as Hg.
  { apply omap_none_all. eapply Forall_impl; [apply drain_gen_trace|].
    by intros ev ->. }
  destruct (IH (S n - length (drain (S n) g).1.2)) as [IH1 IH2].
  destruct (drain (S n) g) as [[tg xs] st]. cbn [fst snd] in *.
  unfold and_then; cbn [fst snd].
  destruct st; cbn [prefix fst snd];
    rewrite ?omap_app, ?Hsrc, ?Hg, ?app_nil_r, ?app_nil_l.
  - split; [by apply prefix_app_r|done].
  - split; [by apply prefix_app|]. intros Hst. f_equal. by apply IH2.
  - split; [by apply prefix_app_r|done].
Qed.

Lemma resolutions_source u : resolutions (sequential_source' u).1 = [u].
Proof.
  unfold sequential_source, get_abspath, urlopen_read, parse. cbn.
  destruct (abspath u) as [l|]; cbn; [|done].
  destruct (blocking_read l) as [c|]; cbn; [|done].
  by destruct (feed_syntax c).
Qed.

Lemma blocking_reads_source u :
  blocking_reads (sequential_source' u).1 = option_list (abspath u).
Proof.
  unfold sequential_source, get_abspath, urlopen_read, parse. cbn.
  destruct (abspath u) as [l|]; cbn; [|done].
  destruct (blocking_read l) as [c|]; cbn; [|done].
  by destruct (feed_syntax c).
Qed.

Lemma concat_singletons (urls : list string) :
  concat ((λ u, [u]) <$> urls) = urls.
Proof. induction urls as [|u urls IH]; [done|]. cbn. by rewrite IH. Qed.

Lemma concat_option_list (urls : list string) :
  concat ((λ u, option_list (abspath u)) <$> urls) = omap abspath urls.
Proof.
  induction urls as [|u urls IH]; [done|]. cbn. rewrite IH.
  by destruct (abspath u).
Qed.

(** X2. In sequential mode the sources are visited in the order they
    were listed and none is visited twice: whatever the consumer has
    asked for, the sources resolved so far are a prefix of the list, and
    the locations read so far a prefix of their locations.  When the
    merged sequence has reached its end, every source has been resolved
    and read exactly once. *)
Theorem sources_visited_once_in_order urls kwargs :
  ∃ f, parser' () urls false kwargs = ([], Ok (VIter f, false)) ∧
    ∀ n,
      resolutions (drain n f).1.1 `prefix_of` urls ∧
      blocking_reads (drain n f).1.1 `prefix_of` omap abspath urls ∧
      ((drain n f).2 = Stopped →
       resolutions (drain n f).1.1 = urls ∧
       blocking_reads (drain n f).1.1 = omap abspath urls).
Proof.
  eexists. split; [apply parser_unfold|]. intros n. unfold multiplex.
  destruct (chain_projection sequential_source'
              (λ ev, match ev with EvResolve url => Some url | _ => None end)
              (λ u, [u]) urls n resolutions_source eq_refl) as [Hr1 Hr2].
  destruct (chain_projection sequential_source'
              (λ ev, match ev with EvRead l => Some l | _ => None end)
              (λ u, option_list (abspath u)) urls n
              blocking_reads_source eq_refl) as [Hb1 Hb2].
  rewrite concat_singletons in Hr1, Hr2.
  rewrite concat_option_list in Hb1, Hb2.
  split_and!; [done..|]. intros Hst. split; [by apply Hr2|by apply Hb2].
Qed.

(** *** Where an exception comes from *)

Lemma chain_raised_inv (ms : lazylist gen) n e :
  (drain n (chain None ms)).2 = Raised e → ∃ t, (t, Raise e) ∈ ms.
Proof.
  revert n. induction ms as [|[t [g|e0]] ms IH]; intros [|n]; try done.
  - unfold M. rewrite drain_chain_cons_ok, prefix_status, drain_chain_some.
    unfold and_then.
    destruct (drain (S n) g) as [[tg xs] st] eqn:Hg; cbn [fst snd].
    destruct st; [done| |].
    + rewrite prefix_status. intros Hr. apply IH in Hr as [t' Hin].
      exists t'. by right.
    + intros [= ->]. pose proof (drain_gen_not_raised gen_resume g (S n) e).
      by rewrite Hg in *.
  - unfold M. rewrite drain_chain_cons_raise. intros [= ->].
    exists t. by left.
Qed.

Lemma sequential_source_raise_inv u t e :
  sequential_source' u = (t, Raise e) →
  source_fails abspath blocking_read feed_syntax u e.
Proof.
  unfold sequential_source, get_abspath, urlopen_read, parse, source_fails.
  cbn. destruct (abspath u) as [l|] eqn:Hl; cbn.
  2: { intros [= _ <-]. by left. }
  destruct (blocking_read l) as [c|] eqn:Hc; cbn.
  2: { intros [= _ <-]. right; left. by exists l. }
  destruct (feed_syntax c) as [d|] eqn:Hd; cbn; [done|].
  intros [= _ <-]. right; right. by exists l, c.
Qed.

Lemma deferred_source_raise_inv c t e :
  deferred_source' c = (t, Raise e) →
  feed_syntax c = None ∧ e = ParseError c.
Proof.
  unfold deferred_source, parse. cbn.
  destruct (feed_syntax c) as [d|]; cbn; [done|]. by intros [= _ <-].
Qed.

Lemma force_resolve_raise_inv urls t e :
  force (imap (get_abspath abspath) (iter urls)) = (t, Raise e) →
  ∃ u, u ∈ urls ∧ abspath u = None ∧ e = ResolutionError u.
Proof.
  revert t. induction urls as [|u urls IH]; intros t; [done|].
  rewrite force_imap_cons. unfold get_abspath at 2. cbn.
  destruct (abspath u) as [l|] eqn:Hl; cbn.
  - destruct (force _) as [t' [ls|e']] eqn:Hf; cbn; [done|].
    intros [= _ <-]. destruct (IH _ eq_refl) as (u' & Hin & Hu' & ->).
    exists u'. split_and!; [by right|done..].
  - intros [= _ <-]. exists u. split_and!; [by left|done..].
Qed.

(** X3. In sequential mode the only exceptions the consumer of the merged
    sequence can meet are the failures of the listed sources: if a
    request ends in the exception [e], some source of [urls] fails with
    [e] in resolution, retrieval or parsing.  The merge and the lazy
    pipeline add no exception of their own. *)
Theorem sequential_exception_is_a_source_failure urls kwargs :
  ∃ f, parser' () urls false kwargs = ([], Ok (VIter f, false)) ∧
    ∀ n e, (drain n f).2 = Raised e →
           ∃ u, u ∈ urls ∧
                source_fails abspath blocking_read feed_syntax u e.
Proof.
  eexists. split; [apply parser_unfold|]. intros n e Hr.
  apply chain_raised_inv in Hr as [t Hin].
  apply list_elem_of_fmap in Hin as (u & Hu & Hin).
  exists u. split; [done|]. by eapply sequential_source_raise_inv.
Qed.

(** X4. In concurrent mode a failure shows at one of two places, by its
    kind.  If the call fails, it fails with the resolution or retrieval
    error of a listed source, never with a parse error.  If the call
    returns, a request to the merged sequence can only end in the parse
    error of the content of a listed source: nothing is resolved or read
    any more. *)
Theorem concurrent_exception_is_a_source_failure sched urls kwargs :
  (∀ t e, asyncParser' sched () urls false kwargs = (t, Raise e) →
     ∃ u, u ∈ urls ∧
          source_fails abspath deferred_read feed_syntax u e ∧
          ∀ c, e ≠ ParseError c) ∧
  (∀ t f n e,
     asyncParser' sched () urls false kwargs = (t, Ok (VIter f, false)) →
     (drain n f).2 = Raised e →
     ∃ u c, u ∈ urls ∧
            source_fails abspath deferred_read feed_syntax u e ∧
            e = ParseError c).
Proof.
  split.
  - intros t e. unfold asyncParser. cbn.
    destruct (asyncImap _ _ _) as [t' [cs|e']] eqn:Hrun; cbn; [done|].
    intros [= _ <-].
    apply asyncImap_raise_inv in Hrun
      as [[t0 Hf]|(t0 & ls & l & Hf & Hl & Hread)].
    + apply force_resolve_raise_inv in Hf as (u & Hin & Hu & ->).
      exists u. split_and!; [done|by left|done].
    + destruct (all_or_fail abspath urls) as [[ls' Hls]|Hres].
      2: { destruct (force_resolve_fail abspath urls Hres) as (? & ? & Hf').
           congruence. }
      rewrite (force_resolve abspath urls ls' Hls) in Hf.
      injection Hf as _ ->.
      apply list_elem_of_lookup in Hl as [i Hi].
      destruct (Forall2_lookup_r _ _ _ _ _ Hls Hi) as (u & Hu & Hul).
      unfold urlRead in Hread.
      destruct (deferred_read l) eqn:Hdl; [done|]. injection Hread as <-.
      exists u. split_and!; [by eapply list_elem_of_lookup_2| |done].
      right; left. by exists l.
  - intros t f n e Hrun Hr.
    destruct (all_or_fail abspath urls) as [[ls Hls]|Hres].
    2: { destruct (asyncParser_fail abspath deferred_read feed_syntax
                     gen_entries gen_resume sched urls kwargs)
           as (? & ? & Hf); [by left|congruence]. }
    destruct (all_or_fail deferred_read ls) as [[cs Hcs]|Hread].
    2: { destruct (asyncParser_fail abspath deferred_read feed_syntax
                     gen_entries gen_resume sched urls kwargs)
           as (? & ? & Hf); [right; by exists ls|congruence]. }
    destruct (asyncParser_ok abspath deferred_read feed_syntax gen_entries
                gen_resume sched urls kwargs ls cs Hls Hcs)
      as (td & _ & Hrun').
    rewrite Hrun' in Hrun. injection Hrun as _ <-.
    apply chain_raised_inv in Hr as [t' Hin].
    apply list_elem_of_fmap in Hin as (c & Hc & Hin).
    symmetry in Hc. apply deferred_source_raise_inv in Hc as [Hd ->].
    apply list_elem_of_lookup in Hin as [i Hi].
    destruct (Forall2_lookup_r _ _ _ _ _ Hcs Hi) as (l & Hl & Hlc).
    destruct (Forall2_lookup_r _ _ _ _ _ Hls Hl) as (u & Hu & Hul).
    exists u, c. split_and!; [by eapply list_elem_of_lookup_2| |done].
    right; right. by exists l, c.
Qed.

(** X5. With no source at all and [skip] false neither orchestrator
    fails or does any work: each returns a merged sequence that is at
    its end at the first request. *)
Theorem no_source_gives_empty_feed sched kwargs :
  (∃ f, parser' () [] false kwargs = ([], Ok (VIter f, false)) ∧
        ∀ n, drain (S n) f = ([], [], Stopped)) ∧
  (∃ f, asyncParser' sched () [] false kwargs = ([], Ok (VIter f, false)) ∧
        ∀ n, drain (S n) f = ([], [], Stopped)).
Proof. split; eexists; by split. Qed.

(** X6. In concurrent mode, once the result is available, the contents
    are parsed on demand, in source order and none twice: whatever the
    consumer has asked for, the contents parsed so far are a prefix of
    the contents retrieved, and all of them have been parsed when the
    merged sequence has reached its end. *)
Theorem contents_parsed_once_in_order sched urls kwargs t f :
  asyncParser' sched () urls false kwargs = (t, Ok (VIter f, false)) →
  ∃ ls cs,
    Forall2 (λ u l, abspath u = Some l) urls ls ∧
    Forall2 (λ l c, deferred_read l = Some c) ls cs ∧
    parses t = [] ∧
    ∀ n, parses (drain n f).1.1 `prefix_of` cs ∧
         ((drain n f).2 = Stopped → parses (drain n f).1.1 = cs).
Proof.
  intros Hrun.
  destruct (all_or_fail abspath urls) as [[ls Hls]|Hres].
  2: { destruct (asyncParser_fail abspath deferred_read feed_syntax
                   gen_entries gen_resume sched urls kwargs)
         as (? & ? & Hf); [by left|congruence]. }
  destruct (all_or_fail deferred_read ls) as [[cs Hcs]|Hread].
  2: { destruct (asyncParser_fail abspath deferred_read feed_syntax
                   gen_entries gen_resume sched urls kwargs)
         as (? & ? & Hf); [right; by exists ls|congruence]. }
  destruct (asyncParser_ok abspath deferred_read feed_syntax gen_entries
              gen_resume sched urls kwargs ls cs Hls Hcs)
    as (td & Hperm & Hrun').
  rewrite Hrun' in Hrun. injection Hrun as <- <-.
  exists ls, cs. split_and!; [done..| |].
  - unfold parses. rewrite !omap_app. rewrite !omap_none_all; [done|..].
    + rewrite Hperm. by apply Forall_fmap, Forall_true.
    + by apply Forall_fmap, Forall_true.
    + by apply Forall_fmap, Forall_true.
  - intros n. unfold multiplex.
    destruct (chain_projection deferred_source'
                (λ ev, match ev with EvParse c => Some c | _ => None end)
                (λ c, [c]) cs n) as [Hp1 Hp2]; [|done|].
    { intros c. unfold deferred_source, parse. cbn.
      by destruct (feed_syntax c). }
    rewrite concat_singletons in Hp1, Hp2. by split.
Qed.

End FetchMore.

(** * The further properties on the concrete instance *)

Lemma sequential_exception_is_a_source_failure_witness :
  ∃ u, u ∈ ["A"; "B"; "C"] ∧
       source_fails Demo.abspath Demo.read Demo.feed_syntax u
         (RetrievalError "/B").
Proof.
  destruct (sequential_exception_is_a_source_failure Demo.abspath Demo.read
              Demo.feed_syntax Demo.gen_entries Demo.gen_resume
              ["A"; "B"; "C"] ∅) as (f & Hf & Hraise).
  apply (Hraise 3).
  rewrite parser_unfold in Hf. injection Hf as <-. reflexivity.
Defined.

Lemma concurrent_exception_is_a_source_failure_witness :
  (∃ u, u ∈ ["A"; "B"] ∧
        source_fails Demo.abspath Demo.read Demo.feed_syntax u
          (RetrievalError "/B") ∧
        ∀ c, RetrievalError "/B" ≠ ParseError c) ∧
  (∃ u c, u ∈ ["A"; "X"] ∧
          source_fails Demo.abspath Demo.read Demo.feed_syntax u
            (ParseError "</X>") ∧
          ParseError "</X>" = ParseError c).
Proof.
  split.
  - apply (proj1 (concurrent_exception_is_a_source_failure Demo.abspath
                    Demo.read Demo.feed_syntax Demo.gen_entries
                    Demo.gen_resume [1; 0] ["A"; "B"] ∅)
             [EvResolve "A"; EvResolve "B"; EvIssue "/A"; EvIssue "/B"]).
    reflexivity.
  - apply (proj2 (concurrent_exception_is_a_source_failure Demo.abspath
                    Demo.read Demo.feed_syntax Demo.gen_entries
                    Demo.gen_resume [1; 0] ["A"; "X"] ∅)
             [EvResolve "A"; EvResolve "X"; EvIssue "/A"; EvIssue "/X";
              EvDone "/X"; EvDone "/A"]
             (multiplex (Iter0 := gen_iter Demo.gen_resume)
                (fmap (M:=list)
                   (deferred_source Demo.feed_syntax Demo.gen_entries)
                   ["</A>"; "</X>"]))
             4); reflexivity.
Defined.

Lemma contents_parsed_once_in_order_witness :
  ∃ ls cs,
    Forall2 (λ u l, Demo.abspath u = Some l) ["A"; "C"] ls ∧
    Forall2 (λ l c, Demo.read l = Some c) ls cs ∧
    parses [EvResolve "A"; EvResolve "C"; EvIssue "/A"; EvIssue "/C";
            EvDone "/C"; EvDone "/A"] = [] ∧
    ∀ n,
      parses (drain n
                (multiplex (Iter0 := gen_iter Demo.gen_resume)
                   (fmap (M:=list)
                      (deferred_source Demo.feed_syntax Demo.gen_entries)
                      ["</A>"; "</C>"]))).1.1 `prefix_of` cs ∧
      ((drain n
          (multiplex (Iter0 := gen_iter Demo.gen_resume)
             (fmap (M:=list)
                (deferred_source Demo.feed_syntax Demo.gen_entries)
                ["</A>"; "</C>"]))).2 = Stopped →
       parses (drain n
                 (multiplex (Iter0 := gen_iter Demo.gen_resume)
                    (fmap (M:=list)
                       (deferred_source Demo.feed_syntax Demo.gen_entries)
                       ["</A>"; "</C>"]))).1.1 = cs).
Proof.
  apply (contents_parsed_once_in_order Demo.abspath Demo.read
           Demo.feed_syntax Demo.gen_entries Demo.gen_resume
           [1; 0] ["A"; "C"] ∅).
  reflexivity.
Defined.
